(** * cmskit CLI: dependency resolution, installation, content adaptation
      and project detection

    A shallow embedding of the TypeScript sources

    - [services/component-installer.ts] (class [ComponentInstaller]),
    - [services/component-registry.ts]  (type [Component], [getComponent]),
    - [services/project-analyzer.ts]    (class [ProjectAnalyzer]),
    - [utils/file-system.ts]            ([findUp], [ensureDir],
                                         [writeFile]),

    followed by the theorems about them.

    Modelling conventions.
    - JavaScript strings are [string]s; every pattern the program matches
      is made of ASCII characters only.
    - [Promise]s are run to completion: an [async] function is a function
      that returns its value or the message of the [Error] it throws.
    - A JavaScript [Map] keeps its entries in insertion order and is an
      association list; the registry and the file system are finite maps.
      The disk the installer writes to lists files and directories: the
      directories that [writeFile] creates exist for [existsSync].
    - A request to the registry returns a descriptor or throws: the
      not-found error, or what [fetch], [response.json] or the schema
      threw.
    - The [while] loop of the resolver takes fuel; the entry point supplies
      an amount that is proved sufficient for every registry. *)

From Stdlib Require Import Ascii String.
From Equations Require Import Equations.
From Equations.Prop Require Import Logic.
From stdpp Require Import gmap strings list fin_maps.

Set Default Proof Using "Type".

(** String concatenation computes on a literal first argument. *)
#[global] Arguments String.append !s1 s2.

(** ** Data model *)

(** [ProjectConfigSchema] of [project-analyzer.ts]. *)
Inductive Framework := svelte | sveltekit.
Inductive Styling := tailwind | css | scss | none.
Inductive PackageManager := npm | yarn | pnpm | bun.

Record Paths := mkPaths {
  components : string;
  lib : string;
  src : string
}.

Record ProjectConfig := mkProjectConfig {
  framework : Framework;
  typescript : bool;
  styling : Styling;
  packageManager : PackageManager;
  paths : Paths
}.

(** [ComponentSchema] of [component-registry.ts]. *)
Inductive FileType := component_file | style_file | util_file | type_file.

Record ComponentFile := mkFile {
  path : string;
  content : string;
  type : FileType
}.

Record Component := mkComponent {
  id : string;
  name : string;
  description : string;
  category : string;
  dependencies : list string;
  devDependencies : option (list string);
  registryDependencies : option (list string);
  files : list ComponentFile
}.

(** The configuration of the installer's test ([component-install.spec.ts]),
    with either value of [typescript]. *)
Definition mockProjectConfig (ts : bool) : ProjectConfig :=
  mkProjectConfig sveltekit ts tailwind npm
    (mkPaths "src/lib/components" "src/lib" "src").

(** How a call ends: with a value, with a thrown [Error] (its message), or,
    for the fuelled loop only, with the fuel used up. *)
Inductive outcome (A : Type) :=
| Done (a : A)
| Throw (msg : string)
| OutOfFuel.
Arguments Done {A} a.
Arguments Throw {A} msg.
Arguments OutOfFuel {A}.

Definition terminated {A} (o : outcome A) : Prop :=
  match o with OutOfFuel => False | _ => True end.

(** The double quote character, and strings ending in it. *)
Definition dquote : string := String "034"%char EmptyString.

(** ** Content adapter: [ComponentInstaller.processFileContent] *)
Module Adapter.

(** [strip_prefix p s] is [Some rest] when [s = p ++ rest]. *)
Fixpoint strip_prefix (p s : string) : option string :=
  match p with
  | EmptyString => Some s
  | String a p' =>
      match s with
      | EmptyString => None
      | String b s' => if Ascii.eqb a b then strip_prefix p' s' else None
      end
  end.

(** [content.replace(/pat/g, rep)] for a regular expression that is a
    literal, non-empty string (all four expressions of the program are:
    their only metacharacters are escaped) and a replacement without
    substitution patterns (in ["$lib/"] the dollar is followed by a letter,
    so it stands for itself): scan from the left, replace each match and
    resume after it. *)
Equations? replace_all (pat rep s : string) : string
  by wf (String.length s) lt :=
  replace_all EmptyString rep s := s;
  replace_all (String p0 pt) rep EmptyString := EmptyString;
  replace_all (String p0 pt) rep (String c s')
    with inspect (strip_prefix (String p0 pt) (String c s')) := {
    | exist _ (Some rest) _ => rep +:+ replace_all (String p0 pt) rep rest;
    | exist _ None _ => String c (replace_all (String p0 pt) rep s') }.
Proof.
  - clear replace_all. rename e into Hrest.
    assert (∀ p s r, strip_prefix p s = Some r →
                     String.length s = String.length p + String.length r)
      as Hlen.
    { clear. intros p. induction p as [|a p IH]; intros s r H; simpl in H.
      - by inversion H.
      - destruct s as [|b s]; [done|].
        destruct (Ascii.eqb a b); [|done].
        simpl. by rewrite (IH _ _ H). }
    apply Hlen in Hrest. simpl in *. lia.
  - simpl. lia.
Qed.

Definition prefixb (p s : string) : bool :=
  match strip_prefix p s with Some _ => true | None => false end.

(** [occurs q s]: [q] is a substring of [s]. *)
Fixpoint occurs (q s : string) : bool :=
  match s with
  | EmptyString => prefixb q EmptyString
  | String _ s' => prefixb q s || occurs q s'
  end.

(** [no_char a s]: the character [a] is not in [s]. *)
Fixpoint no_char (a : ascii) (s : string) : bool :=
  match s with
  | EmptyString => true
  | String b s' => negb (Ascii.eqb a b) && no_char a s'
  end.

Definition processFileContent (config : ProjectConfig) (content : string)
  : string :=
  (* Replace path variables *)
  let content := replace_all "$lib/" "$lib/" content in
  let content := replace_all "$components/" "$lib/components/" content in
  (* Adjust import extensions based on TypeScript usage *)
  if negb (typescript config) then
    let content := replace_all ".ts'" ".js'" content in
    replace_all (".ts" +:+ dquote) (".js" +:+ dquote) content
  else content.

(** The typed and the plain extension before a closing double quote. *)
Definition ts_dq : string := Eval cbv in ".ts" +:+ dquote.
Definition js_dq : string := Eval cbv in ".js" +:+ dquote.

End Adapter.

(** ** Registry: [ComponentRegistry.getComponent] *)
Module Registry.

(** What [registry.getComponent] comes to for each identifier. A run of the
    resolver asks for an identifier once at most, so one answer per
    identifier describes the registry as a run meets it, the client's
    cache included. For the identifiers of [descriptors] the call returns
    the descriptor. For every other identifier it throws: the message
    recorded in [failures] (what [fetch], [response.json] or the schema's
    [parse] threw) or, when none is recorded, the error for a response that
    is not [ok]. *)
Record Registry := mkRegistry {
  descriptors : gmap string Component;
  failures : gmap string string
}.

Definition not_found (componentId : string) : string :=
  "Component " +:+ dquote +:+ componentId +:+ dquote +:+ " not found".

Definition getComponent (reg : Registry) (componentId : string)
  : string + Component :=
  match descriptors reg !! componentId with
  | Some component => inr component
  | None =>
      inl (default (not_found componentId) (failures reg !! componentId))
  end.

(** A registry whose service answers every request: with the descriptor of
    a known identifier, with a response that is not [ok] for the others. *)
Definition registry_of (known : gmap string Component) : Registry :=
  mkRegistry known ∅.

End Registry.

(** ** A JavaScript [Map] with string keys: entries in insertion order *)
Module JsMap.

Definition t (V : Type) := list (string * V).

Definition keys {V} (m : t V) : list string := m.*1.
Definition values {V} (m : t V) : list V := m.*2.
Definition has {V} (m : t V) (k : string) : bool := bool_decide (k ∈ keys m).

(** [set] keeps the position of a key that is present and appends a new
    one. *)
Fixpoint set {V} (m : t V) (k : string) (v : V) : t V :=
  match m with
  | [] => [(k, v)]
  | (k', v') :: m' =>
      if decide (k' = k) then (k, v) :: m' else (k', v') :: set m' k v
  end.

End JsMap.

(** ** Dependency resolver:
       [ComponentInstaller.resolveComponentsWithDependencies] *)
Module Resolver.
Import Registry.

(** What the loop does to the outside and to its queue: a call of
    [registry.getComponent], a [toResolve.push]. *)
Inductive event :=
| Fetch (componentId : string)
| Enqueue (componentId : string).

Definition event_id (e : event) : string :=
  match e with Fetch i => i | Enqueue i => i end.

(** [component.registryDependencies], nothing when the field is absent. *)
Definition registryDeps (component : Component) : list string :=
  default [] (registryDependencies component).

(** The [while (toResolve.length > 0)] loop; one unit of fuel per
    iteration. Returns the events in the order they happen and how the
    loop ends. *)
Fixpoint resolve_loop (fuel : nat) (reg : Registry)
    (resolved : JsMap.t Component) (toResolve : list string)
  : list event * outcome (JsMap.t Component) :=
  match toResolve with
  | [] => ([], Done resolved)
  | id :: toResolve =>
      match fuel with
      | 0 => ([], OutOfFuel)
      | S fuel =>
          if JsMap.has resolved id then
            resolve_loop fuel reg resolved toResolve
          else
            match getComponent reg id with
            | inl msg => ([Fetch id], Throw msg)
            | inr component =>
                let resolved := JsMap.set resolved id component in
                (* Add registry dependencies to resolve *)
                let pushed :=
                  filter (λ dep, JsMap.has resolved dep = false)
                         (registryDeps component) in
                let '(events, r) :=
                  resolve_loop fuel reg resolved (toResolve ++ pushed) in
                (Fetch id :: (Enqueue <$> pushed) ++ events, r)
            end
      end
  end.

(** Enough iterations for every run: each one takes an identifier off the
    queue, which starts with the requests and receives the dependency list
    of a descriptor at most once. *)
Definition queued_by (known : gmap string Component) : nat :=
  sum_list_with (λ kc, length (registryDeps kc.2)) (map_to_list known).

Definition resolve_fuel (reg : Registry) (componentIds : list string) : nat :=
  length componentIds + queued_by (descriptors reg).

Definition resolve_trace (reg : Registry) (componentIds : list string)
  : list event * outcome (JsMap.t Component) :=
  resolve_loop (resolve_fuel reg componentIds) reg [] componentIds.

Definition resolveComponentsWithDependencies (reg : Registry)
    (componentIds : list string) : outcome (list Component) :=
  match (resolve_trace reg componentIds).2 with
  | Done resolved => Done (JsMap.values resolved)
  | Throw msg => Throw msg
  | OutOfFuel => OutOfFuel
  end.

(** *** Vocabulary of the statements *)

(** The identifiers of the closure: the requested ones and those that the
    descriptor of a reachable identifier lists. *)
Inductive reachable (reg : Registry) (componentIds : list string)
  : string → Prop :=
| reach_requested i : i ∈ componentIds → reachable reg componentIds i
| reach_dependency i component dep :
    reachable reg componentIds i →
    descriptors reg !! i = Some component →
    dep ∈ registryDeps component →
    reachable reg componentIds dep.

(** The registry is a graph for the requests: every requested
    identifier and every identifier a descriptor lists has a descriptor. *)
Definition is_graph (reg : Registry) (componentIds : list string) : Prop :=
  Forall (λ i, is_Some (descriptors reg !! i)) componentIds
  ∧ map_Forall (λ _ c, Forall (λ dep, is_Some (descriptors reg !! dep))
                              (registryDeps c))
               (descriptors reg).

#[global] Instance is_graph_dec reg componentIds :
  Decision (is_graph reg componentIds).
Proof. unfold is_graph. apply _. Defined.

(** The dependency list of an identifier in the registry. *)
Definition deps_of (reg : Registry) (i : string) : list string :=
  from_option registryDeps [] (descriptors reg !! i).

(** [first_occurrences seen l]: [l] without the elements of [seen] and
    without repetitions, each element at its first position. *)
Fixpoint first_occurrences (seen : gset string) (l : list string)
  : list string :=
  match l with
  | [] => []
  | x :: l' =>
      if bool_decide (x ∈ seen) then first_occurrences seen l'
      else x :: first_occurrences ({[x]} ∪ seen) l'
  end.

(** After a successful or failed fetch of an identifier, no later event
    mentions it. *)
Fixpoint no_revisit (events : list event) : Prop :=
  match events with
  | [] => True
  | Fetch i :: events' =>
      (∀ e, e ∈ events' → event_id e ≠ i) ∧ no_revisit events'
  | Enqueue _ :: events' => no_revisit events'
  end.

End Resolver.

(** ** Installer: [ComponentInstaller.installComponents] *)
Module Installer.
Import Registry Resolver Adapter.

(** What there is at a path of the disk. *)
Inductive Entry := File (content : string) | Directory.

#[global] Instance Entry_eq_dec : EqDecision Entry.
Proof. solve_decision. Defined.

(** The disk: the files and the directories there are, by path. Paths
    that differ name different entries (a case-sensitive file system
    without links). The root and the working directory exist whatever the
    disk lists; they are not entries. *)
Abbreviation FileSystem := (gmap string Entry).

(** What the program takes from Node's [path] module and from the
    operating system. *)
Class Platform := {
  (** [path.join] *)
  join : list string → string;
  (** [path.dirname], repeated: the directory of a path, then the
      directories above it, nearest first, without the root and the working
      directory *)
  parents : string → list string;
  (** the message of [fs.mkdir] when a regular file is in the way: the
      directory asked for, the path of the file *)
  mkdir_blocked : string → string → string;
  (** the message of [fs.writeFile] for a path that is a directory *)
  is_a_directory : string → string;
  (** the other cases in which the creation of one directory is refused
      (permissions, quota, ...): the message *)
  mkdir_refused : FileSystem → string → option string;
  (** the other cases in which [fs.writeFile] of a content is refused: the
      message and, when the file was opened before the error, the content
      it is left with *)
  write_refused : FileSystem → string → string
                  → option (string * option string)
}.

Definition existsSync (fs : FileSystem) (p : string) : bool :=
  bool_decide (is_Some (fs !! p)).

(** [fs.mkdir(requested, { recursive: true })], where [dirs] is
    [requested] followed by the directories above it: looks upwards for a
    directory that exists and creates the missing ones below it. Returns
    the message of the error, if any, and the disk as the call leaves
    it. *)
Fixpoint mkdir_recursive `{Platform} (requested : string)
    (fs : FileSystem) (dirs : list string) : option string * FileSystem :=
  match dirs with
  | [] => (None, fs)
  | dir :: above =>
      match fs !! dir with
      | Some Directory => (None, fs)
      | Some (File _) => (Some (mkdir_blocked requested dir), fs)
      | None =>
          match mkdir_recursive requested fs above with
          | (Some msg, fs') => (Some msg, fs')
          | (None, fs') =>
              match mkdir_refused fs' dir with
              | Some msg => (Some msg, fs')
              | None => (None, <[dir := Directory]> fs')
              end
          end
      end
  end.

(** [ensureDir] of [utils/file-system.ts]. The directory is given with
    those above it: the first of [dirs] is the directory to ensure. *)
Definition ensureDir `{Platform} (fs : FileSystem) (dirs : list string)
  : option string * FileSystem :=
  mkdir_recursive (hd EmptyString dirs) fs dirs.

(** [fs.writeFile(path, content, "utf-8")]: creates the file or replaces
    its content. *)
Definition fs_writeFile `{Platform} (fs : FileSystem) (path content : string)
  : option string * FileSystem :=
  match fs !! path with
  | Some Directory => (Some (is_a_directory path), fs)
  | _ =>
      match write_refused fs path content with
      | Some (msg, Some partial) => (Some msg, <[path := File partial]> fs)
      | Some (msg, None) => (Some msg, fs)
      | None => (None, <[path := File content]> fs)
      end
  end.

(** [writeFile] of [utils/file-system.ts]. *)
Definition writeFile `{Platform} (fs : FileSystem) (path content : string)
  : option string * FileSystem :=
  (* ensureDir(dirname(path)) *)
  match ensureDir fs (parents path) with
  | (Some msg, fs') => (Some msg, fs')
  | (None, fs') => fs_writeFile fs' path content
  end.

Record InstallerOptions := mkOptions {
  projectInfo : ProjectConfig;
  registry : Registry;
  force : bool;
  dryRun : bool
}.

Record InstallResult := mkResult {
  component : string;
  success : bool;
  r_files : option (list string);
  r_dependencies : option (list string);
  error : option string
}.

(** A JavaScript [Set] of strings, in insertion order. *)
Definition set_add (s : list string) (x : string) : list string :=
  if bool_decide (x ∈ s) then s else s ++ [x].

(** A call of [writeFile] made by the installer: the path, and the message
    of the error when the call threw. *)
Record Write := mkWrite {
  at_path : string;
  threw : option string
}.

(** The state the installer acts on: the disk and its own
    [installedDeps]; and, for the statements, the calls of [writeFile] made
    so far, in order. *)
Record World := mkWorld {
  disk : FileSystem;
  installedDeps : list string;
  writes : list Write
}.

(** [await writeFile(path, content)] in the installer: on the disk of the
    world, and put on record. *)
Definition call_writeFile `{Platform} (w : World) (path content : string)
  : option string * World :=
  let '(thrown, fs) := writeFile (disk w) path content in
  (thrown,
   mkWorld fs (installedDeps w) (writes w ++ [mkWrite path thrown])).

Section installer.
Context `{Platform}.
Variable options : InstallerOptions.

(** The [for (const file of component.files)] loop of [installComponent]:
    [inl] is the message of the error thrown, and the world is returned as
    the loop left it. *)
Fixpoint install_files (componentId targetPath : string)
    (fl : list ComponentFile) (installedFiles : list string)
    (w : World) : (string + list string) * World :=
  match fl with
  | [] => (inr installedFiles, w)
  | file :: fl =>
      let filePath := join [targetPath; componentId; path file] in
      (* Check if file exists and we're not forcing *)
      if existsSync (disk w) filePath && negb (force options) then
        (inl ("File already exists: " +:+ filePath), w)
      else
        let '(thrown, w') :=
          if negb (dryRun options) then
            call_writeFile w filePath
              (processFileContent (projectInfo options) (content file))
          else (None, w) in
        match thrown with
        | Some msg => (inl msg, w')
        | None =>
            install_files componentId targetPath fl
              (installedFiles ++ [filePath]) w'
        end
  end.

Definition installComponent (c : Component) (targetPath : string)
    (w : World) : (string + InstallResult) * World :=
  match install_files (id c) targetPath (files c) [] w with
  | (inl msg, w') => (inl msg, w')
  | (inr installedFiles, w') =>
      (* Track dependencies *)
      let allDeps := dependencies c ++ default [] (devDependencies c) in
      (inr (mkResult (name c) true (Some installedFiles) (Some allDeps) None),
       mkWorld (disk w') (foldl set_add (installedDeps w') allDeps)
               (writes w'))
  end.

(** The body of the loop of [installComponents]: [try] to install,
    [catch] the error as a failed result. *)
Definition install_one (c : Component) (targetPath : string) (w : World)
  : InstallResult * World :=
  match installComponent c targetPath w with
  | (inr result, w') => (result, w')
  | (inl msg, w') =>
      (mkResult (name c) false None None (Some msg), w')
  end.

Fixpoint install_loop (allComponents : list Component) (targetPath : string)
    (results : list InstallResult) (w : World)
  : list InstallResult * World :=
  match allComponents with
  | [] => (results, w)
  | c :: allComponents =>
      let '(result, w') := install_one c targetPath w in
      install_loop allComponents targetPath (results ++ [result]) w'
  end.

Definition installComponents (componentIds : list string)
    (targetPath : string) (w : World)
  : outcome (list InstallResult) * World :=
  (* Resolve all components and their dependencies *)
  match resolveComponentsWithDependencies (registry options) componentIds with
  | Done allComponents =>
      let '(results, w') := install_loop allComponents targetPath [] w in
      (Done results, w')
  | Throw msg => (Throw msg, w)
  | OutOfFuel => (OutOfFuel, w)
  end.

End installer.

(** *** Vocabulary of the statements *)


(** The target path of a file of a component. *)
Definition target_of `{Platform} (targetPath : string) (c : Component)
    (file : ComponentFile) : string :=
  join [targetPath; id c; path file].

(** The target paths of a component, in the order of its files. *)
Definition targets `{Platform} (targetPath : string) (c : Component)
  : list string :=
  target_of targetPath c <$> files c.

(** The target paths of a run, in installation order. *)
Definition all_targets `{Platform} (targetPath : string)
    (allComponents : list Component) : list string :=
  flat_map (targets targetPath) allComponents.

(** The directories above the paths. *)
Definition above `{Platform} (paths : list string) : list string :=
  flat_map parents paths.

(** The paths are pairwise distinct and none is a directory above
    another. *)
Definition apart `{Platform} (paths : list string) : Prop :=
  NoDup paths ∧ ∀ p q, p ∈ paths → q ∈ paths → p ∉ parents q.

#[global] Instance apart_dec `{Platform} paths : Decision (apart paths).
Proof.
  refine (cast_if (decide (NoDup paths
                           ∧ Forall (λ p, Forall (λ q, p ∉ parents q) paths)
                                    paths)));
    unfold apart.
  - destruct a as [Hnd Hall]. split; [done|]. intros p q Hp Hq.
    rewrite Forall_forall in Hall. specialize (Hall p Hp).
    rewrite Forall_forall in Hall. by apply Hall.
  - intros [Hnd Hall]. apply n. split; [done|].
    apply Forall_forall. intros p Hp. apply Forall_forall. intros q Hq.
    by apply Hall.
Defined.

(** The disk with the missing directories of [dirs] created: [dirs] is a
    directory followed by those above it. *)
Fixpoint mkdirs (fs : FileSystem) (dirs : list string) : FileSystem :=
  match dirs with
  | [] => fs
  | dir :: above =>
      if existsSync fs dir then fs else <[dir := Directory]> (mkdirs fs above)
  end.

(** The disk after writing the adapted content of the files [fl] of [c],
    in order, each with its directories. *)
Definition write_all `{Platform} (config : ProjectConfig)
    (targetPath : string) (c : Component) (fl : list ComponentFile)
    (fs : FileSystem) : FileSystem :=
  foldl (λ fs file,
           <[target_of targetPath c file
             := File (processFileContent config (content file))]>
             (mkdirs fs (parents (target_of targetPath c file))))
        fs fl.

(** What happens to a path from one disk to a later one: nothing, or a
    directory of [dirs] is created where nothing was. *)
Definition kept_or_made (dirs : list string) (fs fs' : FileSystem)
    (p : string) : Prop :=
  fs' !! p = fs !! p
  ∨ fs !! p = None ∧ fs' !! p = Some Directory ∧ p ∈ dirs.

(** A call of [writeFile] for [p] that returned. *)
Definition wrote (p : string) : Write := mkWrite p None.

Definition returned (x : Write) : Prop := threw x = None.

#[global] Instance returned_dec x : Decision (returned x).
Proof. unfold returned. apply _. Defined.

(** The calls of [writeFile] made from [w] to [w']. *)
Definition writes_since (w w' : World) : list Write :=
  drop (length (writes w)) (writes w').

(** The result recorded for a component whose installation threw. *)
Definition failed (c : Component) (msg : string) : InstallResult :=
  mkResult (name c) false None None (Some msg).

(** [r] is a result for [c]: it carries the display name, and either
    reports success or carries an error message. *)
Definition result_of (c : Component) (r : InstallResult) : Prop :=
  component r = name c
  ∧ (success r = true ∧ error r = None
     ∨ success r = false ∧ is_Some (error r)).

(** *** A platform for the examples *)

(** Segments joined by a slash: what [path.join] does to segments that are
    already normal. *)
Definition slash_join (segments : list string) : string :=
  String.concat "/" segments.

(** The prefixes of a path that end before a slash, longest first; [read]
    is the part of the path that was gone through. *)
Fixpoint prefixes_at_slash (read rest : string) (found : list string)
  : list string :=
  match rest with
  | EmptyString => found
  | String c rest' =>
      prefixes_at_slash (read +:+ String c EmptyString) rest'
        (if Ascii.eqb c "/" && negb (String.eqb read EmptyString)
         then read :: found else found)
  end.

Definition slash_parents (p : string) : list string :=
  prefixes_at_slash EmptyString p [].

Definition quoted (p : string) : string := "'" +:+ p +:+ "'".

(** Paths with slashes, the messages of Node, an operating system that
    refuses nothing. *)
Definition plain_platform : Platform :=
  {| join := slash_join;
     parents := slash_parents;
     mkdir_blocked := λ requested blocker,
       if String.eqb requested blocker
       then "EEXIST: file already exists, mkdir " +:+ quoted requested
       else "ENOTDIR: not a directory, mkdir " +:+ quoted requested;
     is_a_directory := λ p,
       "EISDIR: illegal operation on a directory, open " +:+ quoted p;
     mkdir_refused := λ _ _, None;
     write_refused := λ _ _ _, None |}.


(** The disk that holds the given files, each with the directories above
    it. *)
Definition disk_of (contents : list (string * string)) : FileSystem :=
  foldl (λ fs pc, <[pc.1 := File pc.2]> (mkdirs fs (slash_parents pc.1)))
        ∅ contents.

End Installer.

(** ** Project detector: [ProjectAnalyzer] and [findUp] *)
Module Analyzer.

(** An absolute path as [path.resolve] returns it on a POSIX system, as
    the list of its segments, innermost first: ["/home/me/app"] is
    [["app"; "me"; "home"]] and the root directory is [[]]. *)
Definition Path := list string.

Definition root : Path := [].

(** [path.dirname]: the parent directory; the root is its own parent. *)
Definition dirname (p : Path) : Path := tail p.

(** [path.join(dir, rel)] for a relative path [rel] given by its segments,
    outermost first. *)
Definition join (dir : Path) (rel : list string) : Path := rev rel ++ dir.

(** A relative path as the program prints it: ["."] when empty. *)
Definition show (rel : list string) : string :=
  match rel with
  | [] => "."
  | _ => String.concat "/" rel
  end.

(** The read-only view of the disk that the detector takes:
    [fs.existsSync], and, for [package.json], whether reading and parsing
    it throws (with which message) or whether it declares the [sass]
    package. *)
Class FsView := {
  existsSync : Path → bool;
  packageJsonSass : Path → string + bool
}.

Record AnalysisResult := mkAnalysis {
  isValid : bool;
  config : option ProjectConfig;
  error : option string
}.

Section analyzer.
Context `{FsView}.

(** [findUp] of [utils/file-system.ts]: the [while (dir !== root)] loop,
    by recursion on the directory. *)
Fixpoint findUp (names : list string) (dir : Path) : option Path :=
  match dir with
  | [] => None
  | _ :: parent =>
      match List.find (λ name, existsSync (join dir [name])) names with
      | Some name => Some (join dir [name])
      | None => findUp names parent
      end
  end.

Definition findSvelteConfig (cwd : Path) : option Path :=
  findUp ["svelte.config.js"; "svelte.config.ts"] cwd.

Definition detectFramework (cwd : Path) : Framework :=
  (* Check for SvelteKit-specific files *)
  let hasAppHtml := existsSync (join cwd ["src"; "app.html"]) in
  let hasRoutes := existsSync (join cwd ["src"; "routes"]) in
  if hasAppHtml || hasRoutes then sveltekit else svelte.

Definition hasTypeScript (cwd : Path) : bool :=
  match findUp ["tsconfig.json"; "tsconfig.node.json"] cwd with
  | Some _ => true
  | None => false
  end.

Definition detectStyling (cwd : Path) : string + Styling :=
  (* Check for Tailwind *)
  match findUp ["tailwind.config.js"; "tailwind.config.ts";
                "tailwind.config.cjs"] cwd with
  | Some _ => inr tailwind
  | None =>
      (* Check package.json for SCSS *)
      let packageJsonPath := join cwd ["package.json"] in
      let sass :=
        if existsSync packageJsonPath then packageJsonSass packageJsonPath
        else inr false in
      match sass with
      | inl msg => inl msg
      | inr true => inr scss
      | inr false =>
          (* Check for CSS files *)
          let hasCss := existsSync (join cwd ["src"; "app.css"])
                        || existsSync (join cwd ["src"; "global.css"]) in
          inr (if hasCss then css else none)
      end
  end.

Definition detectPackageManager (cwd : Path) : PackageManager :=
  if existsSync (join cwd ["bun.lockb"]) then bun
  else if existsSync (join cwd ["pnpm-lock.yaml"]) then pnpm
  else if existsSync (join cwd ["yarn.lock"]) then yarn
  else npm.

Definition determinePaths (cwd : Path) : Paths :=
  let srcPath := if existsSync (join cwd ["src"]) then ["src"] else [] in
  let libPath := if existsSync (join cwd (srcPath ++ ["lib"]))
                 then srcPath ++ ["lib"] else srcPath in
  let componentsPath := libPath ++ ["components"] in
  {| src := show srcPath; lib := show libPath;
     components := show componentsPath |}.

Definition no_config_error : string := "No svelte.config.js found".

Definition analyze (cwd : Path) : AnalysisResult :=
  (* Check if this is a Svelte project *)
  match findSvelteConfig cwd with
  | None => mkAnalysis false None (Some no_config_error)
  | Some _ =>
      let framework := detectFramework cwd in
      let typescript := hasTypeScript cwd in
      match detectStyling cwd with
      | inl msg => mkAnalysis false None (Some msg)
      | inr styling =>
          let packageManager := detectPackageManager cwd in
          let paths := determinePaths cwd in
          mkAnalysis true
            (Some (mkProjectConfig framework typescript styling
                     packageManager paths))
            None
      end
  end.

End analyzer.

(** A view for the examples: the paths that exist, and a [package.json]
    that parses and declares no [sass]. *)
Definition view_of (present : list Path) : FsView :=
  {| existsSync := λ p, bool_decide (p ∈ present);
     packageJsonSass := λ _, inr false |}.

(** *** The search as the specification words it

    Walk from the start directory through its parents to the file system
    root, checking the candidates in order at each level, the root
    included. *)
Fixpoint find_up_spec `{FsView} (names : list string) (dir : Path)
  : option Path :=
  match List.find (λ name, existsSync (join dir [name])) names with
  | Some name => Some (join dir [name])
  | None =>
      match dir with
      | [] => None
      | _ :: parent => find_up_spec names parent
      end
  end.

End Analyzer.

(** ** Sample descriptors and registries *)
Module Examples.
Import Registry.

(** The descriptor of the installer's test. *)
Definition button : Component :=
  mkComponent "button" "Button" "A button component" "form" ["clsx"]
    None None
    [mkFile "button.svelte" "<button>Click me</button>" component_file].

(** A descriptor that requires [button]. *)
Definition card : Component :=
  mkComponent "card" "Card" "A card component" "layout"
    ["clsx"; "tailwind-merge"] None (Some ["button"])
    [mkFile "card.svelte" "<script>import B from '$components/button'</script>"
            component_file].

Definition card_descriptors : gmap string Component :=
  <["card" := card]> {["button" := button]}.

Definition card_registry : Registry := registry_of card_descriptors.

(** Two descriptors that require each other. *)
Definition ping : Component :=
  mkComponent "ping" "Ping" "" "demo" [] None (Some ["pong"]) [].
Definition pong : Component :=
  mkComponent "pong" "Pong" "" "demo" [] None (Some ["ping"]) [].

Definition cycle_registry : Registry :=
  registry_of (<["ping" := ping]> {["pong" := pong]}).

(** A descriptor that lists the same file twice. *)
Definition twice : Component :=
  mkComponent "twice" "Twice" "" "demo" [] None None
    [mkFile "a.svelte" "<p>one</p>" component_file;
     mkFile "a.svelte" "<p>two</p>" component_file].

Definition twice_registry : Registry := registry_of {["twice" := twice]}.



(** A descriptor with a file in a directory, and a file at the path of
    that directory. *)
Definition nested : Component :=
  mkComponent "nested" "Nested" "" "demo" [] None None
    [mkFile "a/b.svelte" "<p>b</p>" component_file;
     mkFile "a" "<p>a</p>" component_file].

Definition nested_registry : Registry := registry_of {["nested" := nested]}.

(** A registry whose service fails on the request for [button]. *)
Definition flaky_registry : Registry :=
  mkRegistry {["card" := card]} {["button" := "fetch failed"]}.

End Examples.

(** ** Vocabulary of the further properties *)
Module AdapterWords.
Import Adapter.

(** A character that is in none of the patterns of [processFileContent]. *)
Definition foreign (h : ascii) : bool :=
  no_char h ("$lib/components.ts'" +:+ dquote).

(** Every character of [t] is in [s]. *)
Fixpoint chars_in (t s : string) : bool :=
  match t with
  | EmptyString => true
  | String c t' => negb (no_char c s) && chars_in t' s
  end.

End AdapterWords.

Module ResolverWords.
Import Resolver.

(** The identifiers for which [registry.getComponent] was called, in call
    order. *)
Definition fetched (events : list event) : list string :=
  omap (λ e, match e with Fetch i => Some i | Enqueue _ => None end) events.

End ResolverWords.

(** ** Package installation: [ComponentInstaller.installDependencies] *)
Module Dependencies.
Import Installer.

(** What [execa] is called with: the program and its arguments. *)
Record Invocation := mkInvocation {
  program : string;
  arguments : list string
}.

(** What the program takes from [execa]: whether the child process fails
    (with the message of the error), which rejects the promise. *)
Class Shell := {
  execa : string → list string → option string
}.

(** The value of the [packageManager] field, a string in the source. *)
Definition manager_name (pm : PackageManager) : string :=
  match pm with
  | npm => "npm"
  | yarn => "yarn"
  | pnpm => "pnpm"
  | bun => "bun"
  end.

(** The [installCmd] table, indexed by the package manager. *)
Definition installCmd (pm : PackageManager) (deps : list string)
  : list string :=
  match pm with
  | npm => "install" :: deps
  | yarn => "add" :: deps
  | pnpm => "add" :: deps
  | bun => "add" :: deps
  end.

(** Returns the calls of [execa] it made and how it ends. The line written
    by [logger.debug] is left out. *)
Definition installDependencies `{Shell} (options : InstallerOptions)
    (w : World) : list Invocation * outcome unit :=
  match installedDeps w with
  | [] => ([], Done tt)
  | _ =>
      let packageManager := packageManager (projectInfo options) in
      let deps := installedDeps w in
      let installCmd := installCmd packageManager deps in
      ([mkInvocation (manager_name packageManager) installCmd],
       match execa (manager_name packageManager) installCmd with
       | None => Done tt
       | Some msg => Throw msg
       end)
  end.

(** The dependency lists that the results of a run report, in order:
    those of the components that were installed. *)
Definition recorded (results : list InstallResult) : list string :=
  flat_map (λ r, default [] (r_dependencies r)) results.

(** A shell for the examples: every command succeeds. *)
Definition quiet_shell : Shell := {| execa := λ _ _, None |}.

End Dependencies.

(** ** Registry client: [ComponentRegistry] *)
Module Client.
Import Adapter.

(** What a request ends with, once [fetch], [response.json] and the
    schema's [parse] are through: an error thrown by one of them, a
    response that is not [ok], or valid data. *)
Inductive Answer :=
| Rejects (msg : string)
| NotOk (statusText : string)
| Valid (component : Component).

(** The registry service: the answer to a request for a URL. *)
Class Service := { fetch : string → Answer }.

Record ComponentRegistry := mkClient {
  baseUrl : string;
  cache : gmap string Component
}.

(** [s.replace(/\/$/, "")]: without a final slash the string is returned
    as it is, otherwise without that one slash. *)
Fixpoint strip_slash (s : string) : string :=
  match s with
  | EmptyString => EmptyString
  | String c s' =>
      match s' with
      | EmptyString => if Ascii.eqb c "/" then EmptyString else s
      | _ => String c (strip_slash s')
      end
  end.

Definition default_url : string := "https://api.cmskit.dev".

(** The constructor: [arg] is the argument if one is given, [env] the
    value of [CMSKIT_REGISTRY_URL] if it is set. *)
Definition new_client (arg env : option string) : ComponentRegistry :=
  let baseUrl :=
    match arg with
    | Some url => url
    | None =>
        match env with
        | Some (String c e) => String c e
        | _ => default_url
        end
    end in
  mkClient (strip_slash baseUrl) ∅.

Definition component_url (base componentId : string) : string :=
  base +:+ "/registry/components/" +:+ componentId.

(** [ComponentRegistry.getComponent], with its cache and the request it
    sends. *)
Definition client_getComponent `{Service} (client : ComponentRegistry)
    (componentId : string) : outcome Component * ComponentRegistry :=
  (* Check cache first *)
  match cache client !! componentId with
  | Some component => (Done component, client)
  | None =>
      match fetch (component_url (baseUrl client) componentId) with
      | Rejects msg => (Throw msg, client)
      | NotOk _ => (Throw (Registry.not_found componentId), client)
      | Valid component =>
          (* Cache the result *)
          (Done component,
           mkClient (baseUrl client)
                    (<[componentId := component]> (cache client)))
      end
  end.

(** A service that serves the descriptors of [reg] under [base] and
    answers every other request with a response that is not [ok]. *)
Definition serving (base : string) (reg : gmap string Component) : Service :=
  {| fetch := λ url,
       match strip_prefix (base +:+ "/registry/components/") url with
       | Some componentId =>
           match reg !! componentId with
           | Some component => Valid component
           | None => NotOk "Not Found"
           end
       | None => NotOk "Not Found"
       end |}.

(** A service that is down. *)
Definition offline : Service := {| fetch := λ _, Rejects "fetch failed" |}.

(** A service that answers throughout as the registry [reg] tells: the
    descriptor where there is one, otherwise the failure recorded for the
    identifier, otherwise a response that is not [ok]. *)
Definition answering (base : string) (reg : Registry.Registry) : Service :=
  {| fetch := λ url,
       match strip_prefix (base +:+ "/registry/components/") url with
       | Some componentId =>
           match Registry.descriptors reg !! componentId with
           | Some component => Valid component
           | None =>
               match Registry.failures reg !! componentId with
               | Some msg => Rejects msg
               | None => NotOk "Not Found"
               end
           end
       | None => NotOk "Not Found"
       end |}.

End Client.

(** ** The install command: the action of [installCommand]

    What the command does to the disk, to the package manager and to the
    process, and what it asks. The lines it prints and its spinner are left
    out. *)
Module InstallCommand.
Import Registry Installer Dependencies.

(** The options of the command line. *)
Record Flags := mkFlags {
  flag_path : string;
  flag_force : bool;
  flag_dryRun : bool;
  flag_registry : option string
}.

(** What the action takes from outside: the working directory; [formatPath]
    of [utils/paths.ts]; what the registry at the given URL (or at the
    default one) serves, and how its list of all components is fetched;
    the answers at the two prompts. [inl] is the message of an error
    thrown. *)
Class Session := {
  cwd : Analyzer.Path;
  formatPath : string → string;
  served : option string → Registry;
  getAvailableComponents : option string → string + list Component;
  select : list Component → string + string;
  confirm : string + bool
}.

(** How the action ends: [process.exit] with a code, or a normal return. *)
Inductive Ending := Exit (code : nat) | Return.

Record Report := mkReport {
  ending : Ending;
  asked : bool;
  after : FileSystem;
  calls : list Invocation;
  shown : list InstallResult
}.

(** [r.dependencies?.length] *)
Definition has_dependencies (r : InstallResult) : bool :=
  match r_dependencies r with
  | Some (_ :: _) => true
  | _ => false
  end.

Section action.
Context `{Analyzer.FsView} `{Platform} `{Shell} `{Session}.

(** From [new ComponentInstaller] on. *)
Definition install_and_report (config : ProjectConfig)
    (components : list string) (flags : Flags) (was_asked : bool)
    (fs : FileSystem) : Report :=
  let installPath := formatPath (flag_path flags) in
  let options := mkOptions config (served (flag_registry flags))
                           (flag_force flags) (flag_dryRun flags) in
  match installComponents options components installPath
          (mkWorld fs [] []) with
  | (Done results, w) =>
      (* Install dependencies if needed *)
      if negb (flag_dryRun flags) && existsb has_dependencies results then
        match installDependencies options w with
        | (invocations, Done _) =>
            mkReport Return was_asked (disk w) invocations results
        | (invocations, _) =>
            mkReport (Exit 1) was_asked (disk w) invocations results
        end
      else mkReport Return was_asked (disk w) [] results
  | (_, w) => mkReport (Exit 1) was_asked (disk w) [] []
  end.

(** The components the action goes on with: those named on the command
    line or, when none is, the one picked at the prompt. *)
Definition chosen (components : list string) (flags : Flags)
  : string + list string :=
  (* If no components specified, show interactive selection *)
  match components with
  | [] =>
      match getAvailableComponents (flag_registry flags) with
      | inl msg => inl msg
      | inr availableComponents =>
          match select availableComponents with
          | inl msg => inl msg
          | inr selected => inr [selected]
          end
      end
  | _ => inr components
  end.

Definition install_action (components : list string) (flags : Flags)
    (fs : FileSystem) : Report :=
  (* Analyze project *)
  let projectInfo := Analyzer.analyze cwd in
  match Analyzer.isValid projectInfo, Analyzer.config projectInfo with
  | true, Some config =>
      match chosen components flags with
      | inl _ => mkReport (Exit 1) false fs [] []
      | inr components =>
          (* Confirm installation *)
          if negb (flag_dryRun flags) then
            match confirm with
            | inl _ => mkReport (Exit 1) true fs [] []
            | inr false => mkReport Return true fs [] []
            | inr true => install_and_report config components flags true fs
            end
          else install_and_report config components flags false fs
      end
  | _, _ => mkReport (Exit 1) false fs [] []
  end.

End action.

(** A session for the examples: [/app], paths left as they are, the sample
    registry, a user who picks the first component and answers as told. *)
Definition session (answer : bool) : Session :=
  {| cwd := ["app"];
     formatPath := λ p, p;
     served := λ _, Examples.card_registry;
     getAvailableComponents := λ _, inr [Examples.card; Examples.button];
     select := λ cs, match cs with c :: _ => inr (id c) | [] => inl "none" end;
     confirm := inr answer |}.

(** A Svelte project in [/app]. *)
Definition app_view : Analyzer.FsView :=
  Analyzer.view_of [["svelte.config.js"; "app"]].

End InstallCommand.
Module AdapterFacts.
Import Adapter.

Lemma strip_prefix_length p s rest :
  strip_prefix p s = Some rest →
  String.length s = String.length p + String.length rest.
Proof.
  revert s; induction p as [|a p IH]; intros s H; simpl in H.
  - by inversion H.
  - destruct s as [|b s]; [done|].
    destruct (Ascii.eqb a b); [|done].
    simpl. by rewrite (IH _ H).
Qed.


Lemma strip_prefix_spec p s rest :
  strip_prefix p s = Some rest ↔ s = p +:+ rest.
Proof.
  revert s; induction p as [|a p IH]; intros s; simpl.
  - split; [by inversion 1 | by intros ->].
  - destruct s as [|b s]; [split; done|].
    destruct (Ascii.eqb_spec a b) as [->|Hne].
    + rewrite IH. split; [by intros -> | by inversion 1].
    + split; [done | inversion 1; done].
Qed.

Lemma replace_all_nil pat rep : replace_all pat rep EmptyString = EmptyString.
Proof. destruct pat; by simp replace_all. Qed.

Lemma replace_all_match p0 pt rep c s' rest :
  strip_prefix (String p0 pt) (String c s') = Some rest →
  replace_all (String p0 pt) rep (String c s')
  = rep +:+ replace_all (String p0 pt) rep rest.
Proof.
  intros H. simp replace_all.
  destruct (inspect (strip_prefix (String p0 pt) (String c s')))
    as [[r|] e]; [|congruence].
  assert (r = rest) as -> by congruence. by simp replace_all.
Qed.

Lemma replace_all_skip p0 pt rep c s' :
  strip_prefix (String p0 pt) (String c s') = None →
  replace_all (String p0 pt) rep (String c s')
  = String c (replace_all (String p0 pt) rep s').
Proof.
  intros H. simp replace_all.
  destruct (inspect (strip_prefix (String p0 pt) (String c s')))
    as [[r|] e]; [congruence|]. by simp replace_all.
Qed.

Lemma prefixb_nil_l s : prefixb EmptyString s = true.
Proof. reflexivity. Qed.

Lemma prefixb_cons a u c s :
  prefixb (String a u) (String c s) = Ascii.eqb a c && prefixb u s.
Proof. unfold prefixb; simpl. by destruct (Ascii.eqb a c). Qed.

Lemma prefixb_strip p s :
  prefixb p s = true ↔ ∃ rest, strip_prefix p s = Some rest.
Proof.
  unfold prefixb. destruct (strip_prefix p s); split; eauto; try done.
  by intros [? ?].
Qed.

Lemma prefixb_false p s : prefixb p s = false ↔ strip_prefix p s = None.
Proof. unfold prefixb. by destruct (strip_prefix p s). Qed.

Lemma append_assoc' (a b c : string) : (a +:+ b) +:+ c = a +:+ (b +:+ c).
Proof. induction a as [|x a IH]; simpl; [done | by rewrite IH]. Qed.

Lemma strip_prefix_app_l p u w rest :
  strip_prefix p u = Some rest →
  strip_prefix p (u +:+ w) = Some (rest +:+ w).
Proof.
  rewrite !strip_prefix_spec. intros ->. by rewrite append_assoc'.
Qed.

Lemma occurs_cons q c s : occurs q s = true → occurs q (String c s) = true.
Proof. simpl. intros ->. by rewrite orb_true_r. Qed.

Lemma occurs_app_r q x s : occurs q s = true → occurs q (x +:+ s) = true.
Proof. induction x as [|c x IH]; simpl; [done|]. intros H. rewrite IH; [|done]. by rewrite orb_true_r. Qed.

Lemma occurs_prefixb q s : prefixb q s = true → occurs q s = true.
Proof. destruct s; simpl; [done|]. by intros ->. Qed.

(** A match of [pt] that starts in [u] cannot run into a following text
    whose first character is not in [pt]. *)
Lemma strip_prefix_no_straddle pt u h w rest :
  no_char h pt = true →
  strip_prefix pt (u +:+ String h w) = Some rest →
  ∃ rest', strip_prefix pt u = Some rest'.
Proof.
  revert u; induction pt as [|a pt IH]; intros u Hh H; simpl in *.
  - eauto.
  - apply andb_true_iff in Hh as [Ha Hh].
    destruct u as [|b u]; simpl in *.
    + rewrite Ascii.eqb_sym in H. by destruct (Ascii.eqb h a).
    + destruct (Ascii.eqb a b); [eauto | done].
Qed.

(** *** Replacing a literal by a text with the same first character

    True of the program's four rules. *)
Section replace_literal.
Variables (p0 : ascii) (pt rt : string).
#[local] Abbreviation pat := (String p0 pt).
#[local] Abbreviation rep := (String p0 rt).
#[local] Abbreviation R := (replace_all pat rep).

(** Induction along the scan. *)
Lemma replace_all_scan_ind (rp : string) (P : string → string → Prop) :
  P EmptyString EmptyString →
  (∀ c s' rest, strip_prefix pat (String c s') = Some rest →
     P rest (replace_all pat rp rest) →
     P (String c s') (rp +:+ replace_all pat rp rest)) →
  (∀ c s', strip_prefix pat (String c s') = None →
     P s' (replace_all pat rp s') →
     P (String c s') (String c (replace_all pat rp s'))) →
  ∀ s, P s (replace_all pat rp s).
Proof.
  intros Hnil Hm Hs s.
  remember (String.length s) as n eqn:Hn. revert s Hn.
  induction n as [n IH] using lt_wf_ind. intros [|c s'] Hn.
  - by rewrite replace_all_nil.
  - destruct (strip_prefix pat (String c s')) as [rest|] eqn:E.
    + rewrite (replace_all_match _ _ _ _ _ _ E). apply Hm; [done|].
      apply (IH (String.length rest)); [|done].
      apply strip_prefix_length in E. simpl in *. lia.
    + rewrite (replace_all_skip _ _ _ _ _ E). apply Hs; [done|].
      apply (IH (String.length s')); [simpl in *; lia | done].
Qed.

(** The scan never produces, at its front, a text free of [p0] that the
    input did not start with. *)
Lemma prefixb_replace_all u s :
  no_char p0 u = true → prefixb u (R s) = true → prefixb u s = true.
Proof.
  revert s; induction u as [|a u IH]; intros s Hu; [done|].
  simpl in Hu. apply andb_true_iff in Hu as [Ha Hu].
  destruct s as [|c s'].
  - by rewrite replace_all_nil.
  - destruct (strip_prefix pat (String c s')) as [rest|] eqn:E.
    + rewrite (replace_all_match _ _ _ _ _ _ E). simpl.
      rewrite prefixb_cons, Ascii.eqb_sym.
      by destruct (Ascii.eqb p0 a).
    + rewrite (replace_all_skip _ _ _ _ _ E), !prefixb_cons.
      intros [-> H]%andb_true_iff. by rewrite (IH _ Hu H).
Qed.

(** No occurrence of the pattern is left. *)
Lemma occurs_replace_all_self s :
  no_char p0 pt = true →
  (∀ t, occurs pat (rep +:+ t) = occurs pat t) →
  occurs pat (R s) = false.
Proof.
  intros Hpt Hinert. apply (replace_all_scan_ind rep (λ _ r, occurs pat r = false)).
  - reflexivity.
  - intros c s' rest _ IH. by rewrite Hinert.
  - intros c s' E IH. simpl. rewrite IH, orb_false_r.
    destruct (prefixb pat (String c (R s'))) eqn:Hp; [|done].
    rewrite prefixb_cons in Hp. apply andb_true_iff in Hp as [Hc Hp].
    apply prefixb_replace_all in Hp; [|done].
    apply prefixb_false in E. by rewrite prefixb_cons, Hc, Hp in E.
Qed.

(** No occurrence of another literal [q] is created. *)
Lemma occurs_replace_all_other q0 qt s :
  no_char p0 qt = true →
  (∀ t, occurs (String q0 qt) (rep +:+ t) = occurs (String q0 qt) t) →
  occurs (String q0 qt) s = false →
  occurs (String q0 qt) (R s) = false.
Proof.
  intros Hqt Hinert.
  apply (replace_all_scan_ind rep (λ s r, occurs (String q0 qt) s = false
                                   → occurs (String q0 qt) r = false)).
  - done.
  - intros c s' rest E IH Hs. rewrite Hinert. apply IH.
    apply strip_prefix_spec in E. rewrite E in Hs.
    destruct (occurs (String q0 qt) rest) eqn:Ho; [|done].
    by rewrite (occurs_app_r _ pat _ Ho) in Hs.
  - intros c s' E IH Hs. simpl in Hs. apply orb_false_iff in Hs as [Hp Hs].
    simpl. rewrite (IH Hs), orb_false_r.
    destruct (prefixb (String q0 qt) (String c (R s'))) eqn:Hp'; [|done].
    rewrite prefixb_cons in Hp'. apply andb_true_iff in Hp' as [Hc Hp'].
    apply prefixb_replace_all in Hp'; [|done].
    by rewrite prefixb_cons, Hc, Hp' in Hp.
Qed.

(** The scan of [u] is not disturbed by a following text whose first
    character is not in [pt]. *)
Lemma replace_all_app u h w :
  no_char h pt = true →
  R (u +:+ String h w) = R u +:+ R (String h w).
Proof.
  intros Hh.
  apply (replace_all_scan_ind rep
           (λ u r, R (u +:+ String h w) = r +:+ R (String h w))).
  - done.
  - intros c s' rest E IH.
    pose proof (strip_prefix_app_l _ _ (String h w) _ E) as E'.
    simpl in E'. simpl.
    rewrite (replace_all_match _ _ _ _ _ _ E'), IH.
    simpl. by rewrite append_assoc'.
  - intros c s' E IH. simpl.
    rewrite replace_all_skip, IH; [done|].
    destruct (strip_prefix pat (String c (s' +:+ String h w)))
      as [r|] eqn:E'; [|done].
    simpl in E, E'. destruct (Ascii.eqb p0 c); [|done].
    apply strip_prefix_no_straddle in E' as [r' Hr']; [|done].
    congruence.
Qed.
End replace_literal.

(** Without an occurrence of the pattern the text is returned as it is. *)
Lemma replace_all_absent p0 pt rp s :
  occurs (String p0 pt) s = false → replace_all (String p0 pt) rp s = s.
Proof.
  induction s as [|c s IH]; intros H.
  - by rewrite replace_all_nil.
  - simpl in H. apply orb_false_iff in H as [Hp Ho].
    apply prefixb_false in Hp. rewrite (replace_all_skip _ _ _ _ _ Hp).
    by rewrite (IH Ho).
Qed.

Lemma length_append' (a b : string) :
  String.length (a +:+ b) = String.length a + String.length b.
Proof. induction a as [|x a IH]; simpl; [done | by rewrite IH]. Qed.

(** A longer replacement lengthens every text that holds the pattern. *)
Lemma replace_all_longer p0 pt rp s :
  String.length (String p0 pt) < String.length rp →
  String.length s ≤ String.length (replace_all (String p0 pt) rp s)
  ∧ (occurs (String p0 pt) s = true →
     String.length s < String.length (replace_all (String p0 pt) rp s)).
Proof.
  intros Hlen.
  apply (replace_all_scan_ind p0 pt rp
           (λ s r, String.length s ≤ String.length r
                   ∧ (occurs (String p0 pt) s = true
                      → String.length s < String.length r))).
  - done.
  - intros c s' rest E [IH _]. apply strip_prefix_length in E.
    rewrite E, length_append'. split; [|intros _]; lia.
  - intros c s' E [IH1 IH2]. split; [simpl; lia|].
    apply prefixb_false in E. simpl. rewrite E. simpl.
    intros Ho. specialize (IH2 Ho). lia.
Qed.

(** Replacing a literal by itself changes nothing. *)
Lemma replace_all_same p0 pt s :
  replace_all (String p0 pt) (String p0 pt) s = s.
Proof.
  apply (replace_all_scan_ind p0 pt (String p0 pt) (λ s r, r = s)).
  - done.
  - intros c s' rest E ->. by apply strip_prefix_spec in E.
  - by intros c s' E ->.
Qed.

End AdapterFacts.

(** *** The four rules of [processFileContent] *)
Module AdapterRules.
Import Adapter AdapterFacts.

#[local] Abbreviation alias_rule := (replace_all "$components/" "$lib/components/").
#[local] Abbreviation sq_rule := (replace_all ".ts'" ".js'").
#[local] Abbreviation dq_rule := (replace_all ts_dq js_dq).

Lemma processFileContent_typed config x :
  typescript config = true → processFileContent config x = alias_rule x.
Proof.
  intros Hts. unfold processFileContent. rewrite Hts. simpl.
  by rewrite replace_all_same.
Qed.

Lemma processFileContent_untyped config x :
  typescript config = false →
  processFileContent config x = dq_rule (sq_rule (alias_rule x)).
Proof.
  intros Hts. unfold processFileContent. rewrite Hts. simpl.
  by rewrite replace_all_same.
Qed.

(** Each rule removes every occurrence of its pattern. *)
Lemma alias_rule_clean x : occurs "$components/" (alias_rule x) = false.
Proof. by apply occurs_replace_all_self. Qed.

Lemma sq_rule_clean x : occurs ".ts'" (sq_rule x) = false.
Proof. by apply occurs_replace_all_self. Qed.

Lemma dq_rule_clean x : occurs ts_dq (dq_rule x) = false.
Proof. by apply occurs_replace_all_self. Qed.

(** The extension rules create no occurrence of an earlier pattern. *)
Lemma sq_rule_keeps_alias x :
  occurs "$components/" x = false → occurs "$components/" (sq_rule x) = false.
Proof. by apply occurs_replace_all_other. Qed.

Lemma dq_rule_keeps_alias x :
  occurs "$components/" x = false → occurs "$components/" (dq_rule x) = false.
Proof. by apply occurs_replace_all_other. Qed.

Lemma dq_rule_keeps_sq x :
  occurs ".ts'" x = false → occurs ".ts'" (dq_rule x) = false.
Proof. by apply occurs_replace_all_other. Qed.

(** How each rule passes over an extension in its context. *)
Ltac skip_chars :=
  repeat (rewrite replace_all_skip by reflexivity); try reflexivity.

Lemma alias_rule_at_sq u v :
  alias_rule (u +:+ ".ts'" +:+ v) = alias_rule u +:+ ".ts'" +:+ alias_rule v.
Proof.
  unfold ts_dq, js_dq; simpl. rewrite replace_all_app; [|reflexivity]. f_equal. skip_chars.
Qed.

Lemma alias_rule_at_dq u v :
  alias_rule (u +:+ ts_dq +:+ v) = alias_rule u +:+ ts_dq +:+ alias_rule v.
Proof.
  unfold ts_dq, js_dq; simpl. rewrite replace_all_app; [|reflexivity]. f_equal. skip_chars.
Qed.

Lemma sq_rule_at_sq u v :
  sq_rule (u +:+ ".ts'" +:+ v) = sq_rule u +:+ ".js'" +:+ sq_rule v.
Proof.
  unfold ts_dq, js_dq; simpl. rewrite replace_all_app; [|reflexivity]. f_equal.
  by rewrite (replace_all_match _ _ _ _ _ v) by reflexivity.
Qed.

Lemma sq_rule_at_dq u v :
  sq_rule (u +:+ ts_dq +:+ v) = sq_rule u +:+ ts_dq +:+ sq_rule v.
Proof.
  unfold ts_dq, js_dq; simpl. rewrite replace_all_app; [|reflexivity]. f_equal. skip_chars.
Qed.

Lemma dq_rule_at_js_sq u v :
  dq_rule (u +:+ ".js'" +:+ v) = dq_rule u +:+ ".js'" +:+ dq_rule v.
Proof.
  unfold ts_dq, js_dq; simpl. rewrite replace_all_app; [|reflexivity]. f_equal. skip_chars.
Qed.

Lemma dq_rule_at_dq u v :
  dq_rule (u +:+ ts_dq +:+ v) = dq_rule u +:+ js_dq +:+ dq_rule v.
Proof.
  unfold ts_dq, js_dq; simpl. rewrite replace_all_app; [|reflexivity]. f_equal.
  by rewrite (replace_all_match _ _ _ _ _ v) by reflexivity.
Qed.

(** The adapted text holds none of the patterns the rules look for. *)
Lemma processFileContent_clean config x :
  let y := processFileContent config x in
  occurs "$components/" y = false
  ∧ (typescript config = false →
     occurs ".ts'" y = false ∧ occurs ts_dq y = false).
Proof.
  destruct (typescript config) eqn:Hts; simpl.
  - rewrite processFileContent_typed by done.
    split; [apply alias_rule_clean | done].
  - rewrite processFileContent_untyped by done.
    split; [|intros _; split].
    + apply dq_rule_keeps_alias, sq_rule_keeps_alias, alias_rule_clean.
    + apply dq_rule_keeps_sq, sq_rule_clean.
    + apply dq_rule_clean.
Qed.

End AdapterRules.

(** ** Theorems: content adapter *)
Module AdapterSpec.
Import Adapter AdapterFacts AdapterRules.

Example adapt_untyped :
  processFileContent (mockProjectConfig false)
    "import a from '$components/x.ts'; import b from '$lib/y.tsx'"
  = "import a from '$lib/components/x.js'; import b from '$lib/y.tsx'".
Proof. by vm_compute. Qed.

(** C5. [processFileContent] is idempotent: adapting an adapted text with
    the same configuration returns it unchanged, for every text and every
    configuration. *)
Theorem processFileContent_idempotent (config : ProjectConfig) (x : string) :
  processFileContent config (processFileContent config x)
  = processFileContent config x.
Proof.
  destruct (processFileContent_clean config x) as [Halias Hext].
  set (y := processFileContent config x) in *.
  destruct (typescript config) eqn:Hts.
  - rewrite (processFileContent_typed config y Hts).
    by apply replace_all_absent.
  - destruct (Hext eq_refl) as [Hsq Hdq].
    rewrite (processFileContent_untyped config y Hts).
    rewrite (replace_all_absent _ _ _ y Halias).
    rewrite (replace_all_absent _ _ _ y Hsq).
    by apply replace_all_absent.
Qed.

(** C8, counterexample: with [typescript] set the input is not always
    returned unchanged. An import through the components alias that ends
    in the typed extension has its alias rewritten. *)
Lemma processFileContent_typed_rewrites_alias :
  let x := "import B from '$components/b.ts'" in
  typescript (mockProjectConfig true) = true
  ∧ occurs ".ts'" x = true
  ∧ processFileContent (mockProjectConfig true) x
    = "import B from '$lib/components/b.ts'"
  ∧ processFileContent (mockProjectConfig true) x ≠ x.
Proof.
  simpl. split; [done|]. split; [done|].
  assert (processFileContent (mockProjectConfig true)
            "import B from '$components/b.ts'"
          = "import B from '$lib/components/b.ts'") as E by by vm_compute.
  split; [done|]. rewrite E. discriminate.
Qed.

(** C8 (amended). Without static typing ([typescript = false]) every
    occurrence of the typed extension before a closing single or double
    quote is rewritten to the plain-script extension: no occurrence is
    left, and an occurrence between [u] and [v] becomes the plain
    extension between the adapted [u] and the adapted [v]. With static
    typing no extension is rewritten: only the components alias is, so the
    extension stays in its adapted context, and the input is returned
    unchanged exactly when it holds no components alias. *)
Theorem processFileContent_extensions (config : ProjectConfig) :
  let adapt := processFileContent config in
  (typescript config = false →
     (∀ x, occurs ".ts'" (adapt x) = false ∧ occurs ts_dq (adapt x) = false)
     ∧ (∀ u v, adapt (u +:+ ".ts'" +:+ v) = adapt u +:+ ".js'" +:+ adapt v)
     ∧ (∀ u v, adapt (u +:+ ts_dq +:+ v) = adapt u +:+ js_dq +:+ adapt v))
  ∧ (typescript config = true →
     (∀ x, adapt x = replace_all "$components/" "$lib/components/" x)
     ∧ (∀ u v, adapt (u +:+ ".ts'" +:+ v) = adapt u +:+ ".ts'" +:+ adapt v)
     ∧ (∀ u v, adapt (u +:+ ts_dq +:+ v) = adapt u +:+ ts_dq +:+ adapt v)
     ∧ (∀ x, adapt x = x ↔ occurs "$components/" x = false)).
Proof.
  intros adapt. subst adapt. split; intros Hts.
  - split; [|split].
    + intros x. by apply (processFileContent_clean config x).
    + intros u v. rewrite !processFileContent_untyped by done.
      by rewrite alias_rule_at_sq, sq_rule_at_sq, dq_rule_at_js_sq.
    + intros u v. rewrite !processFileContent_untyped by done.
      by rewrite alias_rule_at_dq, sq_rule_at_dq, dq_rule_at_dq.
  - split; [|split; [|split]].
    + intros x. by apply processFileContent_typed.
    + intros u v. rewrite !processFileContent_typed by done.
      apply alias_rule_at_sq.
    + intros u v. rewrite !processFileContent_typed by done.
      apply alias_rule_at_dq.
    + intros x. rewrite processFileContent_typed by done. split.
      * intros Hx. destruct (occurs "$components/" x) eqn:Ho; [|done].
        apply (replace_all_longer _ _ "$lib/components/") in Ho;
          [|simpl; lia].
        rewrite Hx in Ho. lia.
      * by apply replace_all_absent.
Qed.

Lemma processFileContent_extensions_witness :
  typescript (mockProjectConfig false) = false
  ∧ typescript (mockProjectConfig true) = true
  ∧ occurs ".ts'"
      (processFileContent (mockProjectConfig false) "from './a.ts'")
    = false
  ∧ processFileContent (mockProjectConfig true) "from './a.ts'"
    = "from './a.ts'".
Proof.
  split; [reflexivity|]. split; [reflexivity|]. split.
  - exact (proj1 (proj1
      (proj1 (processFileContent_extensions (mockProjectConfig false))
             eq_refl) "from './a.ts'")).
  - exact (proj2 (proj2 (proj2 (proj2
      (proj2 (processFileContent_extensions (mockProjectConfig true))
             eq_refl))) "from './a.ts'") eq_refl).
Defined.

End AdapterSpec.

(** ** Facts: the resolver *)
Module ResolverFacts.
Import Registry Resolver.

(** *** JavaScript maps *)

Lemma has_true {V} (m : JsMap.t V) k : JsMap.has m k = true ↔ k ∈ JsMap.keys m.
Proof. unfold JsMap.has. by rewrite bool_decide_eq_true. Qed.

Lemma has_false {V} (m : JsMap.t V) k : JsMap.has m k = false ↔ k ∉ JsMap.keys m.
Proof. unfold JsMap.has. by rewrite bool_decide_eq_false. Qed.

Lemma set_fresh {V} (m : JsMap.t V) k v :
  k ∉ JsMap.keys m → JsMap.set m k v = m ++ [(k, v)].
Proof.
  induction m as [|[k' v'] m IH]; simpl; [done|].
  intros Hk. apply not_elem_of_cons in Hk as [Hne Hk].
  destruct (decide (k' = k)) as [->|_]; [done|]. by rewrite IH.
Qed.

Lemma keys_snoc {V} (m : JsMap.t V) k v :
  JsMap.keys (m ++ [(k, v)]) = JsMap.keys m ++ [k].
Proof. unfold JsMap.keys. by rewrite fmap_app. Qed.

(** *** First occurrences *)

Lemma elem_of_first_occurrences seen l x :
  x ∈ first_occurrences seen l ↔ x ∈ l ∧ x ∉ seen.
Proof.
  revert seen; induction l as [|y l IH]; intros seen; simpl.
  - set_solver.
  - case_bool_decide as Hy.
    + rewrite IH. set_solver.
    + rewrite elem_of_cons, IH. destruct (decide (x = y)) as [->|]; set_solver.
Qed.

Lemma NoDup_first_occurrences seen l : NoDup (first_occurrences seen l).
Proof.
  revert seen; induction l as [|y l IH]; intros seen; simpl.
  - constructor.
  - case_bool_decide; [done|]. constructor; [|done].
    rewrite elem_of_first_occurrences. set_solver.
Qed.

Lemma first_occurrences_app seen l1 l2 :
  first_occurrences seen (l1 ++ l2)
  = first_occurrences seen l1
    ++ first_occurrences (list_to_set l1 ∪ seen) l2.
Proof.
  revert seen; induction l1 as [|y l1 IH]; intros seen; simpl.
  - f_equal. set_solver.
  - case_bool_decide as Hy.
    + rewrite IH. do 2 f_equal. set_solver.
    + simpl. rewrite IH. do 3 f_equal. set_solver.
Qed.

(** Leaving out elements that were seen changes nothing. *)
Lemma first_occurrences_filter seen (P : string → Prop)
    `{∀ x, Decision (P x)} l :
  (∀ x, x ∈ l → ¬ P x → x ∈ seen) →
  first_occurrences seen (filter P l) = first_occurrences seen l.
Proof.
  revert seen; induction l as [|y l IH]; intros seen Hseen; [done|].
  rewrite filter_cons. destruct (decide (P y)) as [Hy|Hy]; simpl.
  - case_bool_decide.
    + apply IH. set_solver.
    + f_equal. apply IH. set_solver.
  - rewrite bool_decide_eq_true_2 by set_solver. apply IH. set_solver.
Qed.

Lemma first_occurrences_id seen l :
  NoDup l → (∀ x, x ∈ l → x ∉ seen) → first_occurrences seen l = l.
Proof.
  revert seen; induction l as [|y l IH]; intros seen Hnd Hseen; [done|].
  apply NoDup_cons in Hnd as [Hy Hnd]. simpl.
  rewrite bool_decide_eq_false_2 by set_solver. f_equal.
  apply IH; [done|]. set_solver.
Qed.

(** *** The loop *)

(** One iteration, spelled out. *)
Lemma resolve_loop_cons fuel reg resolved i queue :
  resolve_loop (S fuel) reg resolved (i :: queue) =
  if JsMap.has resolved i then resolve_loop fuel reg resolved queue
  else match descriptors reg !! i with
       | None =>
           ([Fetch i],
            Throw (default (not_found i) (failures reg !! i)))
       | Some c =>
           let resolved' := resolved ++ [(i, c)] in
           let pushed := filter (λ dep, JsMap.has resolved' dep = false)
                                (registryDeps c) in
           let res := resolve_loop fuel reg resolved' (queue ++ pushed) in
           (Fetch i :: (Enqueue <$> pushed) ++ res.1, res.2)
       end.
Proof.
  simpl. destruct (JsMap.has resolved i) eqn:Hhas; [done|].
  unfold getComponent. destruct (descriptors reg !! i) as [c|]; [|done].
  rewrite set_fresh by by apply has_false.
  by destruct (resolve_loop _ _ _ _).
Qed.

(** What a completed run has resolved: new entries after the old ones,
    each the registry's descriptor, in the order of first occurrence in
    the queue followed by the dependency lists of the new entries. *)
Lemma resolve_loop_done reg fuel resolved queue final :
  NoDup (JsMap.keys resolved) →
  (resolve_loop fuel reg resolved queue).2 = Done final →
  ∃ new,
    final = resolved ++ new
    ∧ NoDup (JsMap.keys final)
    ∧ (∀ k c, (k, c) ∈ new → descriptors reg !! k = Some c)
    ∧ JsMap.keys new
      = first_occurrences (list_to_set (JsMap.keys resolved))
          (queue ++ flat_map (deps_of reg) (JsMap.keys new)).
Proof.
  revert resolved queue.
  induction fuel as [|fuel IH]; intros resolved [|i queue] Hnd Hrun;
    try (simpl in Hrun; congruence).
  - exists []. simpl in Hrun. inversion Hrun; subst.
    rewrite app_nil_r. repeat split; try done. by intros k c ?%elem_of_nil.
  - exists []. simpl in Hrun. inversion Hrun; subst.
    rewrite app_nil_r. repeat split; try done. by intros k c ?%elem_of_nil.
  - rewrite resolve_loop_cons in Hrun.
    destruct (JsMap.has resolved i) eqn:Hhas.
    + destruct (IH _ _ Hnd Hrun) as (new & -> & Hnd' & Hreg & Horder).
      exists new. repeat split; try done.
      apply has_true in Hhas. simpl.
      rewrite bool_decide_eq_true_2 by set_solver. done.
    + apply has_false in Hhas.
      destruct (descriptors reg !! i) as [c|] eqn:Hi; [|done]. simpl in Hrun.
      assert (NoDup (JsMap.keys (resolved ++ [(i, c)]))) as Hnd1.
      { rewrite keys_snoc. apply NoDup_app. repeat split; [done| |].
        - set_solver.
        - apply NoDup_singleton. }
      destruct (IH _ _ Hnd1 Hrun) as (new & -> & Hnd' & Hreg & Horder).
      exists ((i, c) :: new).
      split; [by rewrite <- app_assoc|]. split; [done|]. split.
      { intros k c' [[= -> ->]|Hin]%elem_of_cons; [done | by apply Hreg]. }
      change (JsMap.keys ((i, c) :: new)) with (i :: JsMap.keys new).
      simpl. rewrite bool_decide_eq_false_2 by set_solver. f_equal.
      unfold deps_of at 1. rewrite Hi. simpl.
      rewrite Horder at 1. rewrite keys_snoc.
      set (D := flat_map (deps_of reg) (JsMap.keys new)).
      set (S' := list_to_set (JsMap.keys resolved ++ [i]) : gset string).
      assert (S' = {[i]} ∪ list_to_set (JsMap.keys resolved)) as <-
        by set_solver.
      rewrite <- app_assoc.
      rewrite !(first_occurrences_app _ queue). f_equal.
      rewrite !first_occurrences_app. f_equal.
      * apply first_occurrences_filter. intros x Hx Hp.
        apply not_false_iff_true, has_true in Hp.
        rewrite keys_snoc in Hp. set_solver.
      * f_equal. apply set_eq. intros x.
        rewrite !elem_of_union, !elem_of_list_to_set, list_elem_of_filter.
        split; [naive_solver|]. intros [Hx|Hx]; [|by right].
        destruct (JsMap.has (resolved ++ [(i, c)]) x) eqn:Hp; [|by left].
        apply has_true in Hp. rewrite keys_snoc in Hp.
        right; right. set_solver.
Qed.

(** Everything that is resolved was reachable. *)
Lemma resolve_loop_reachable reg ids fuel resolved queue final :
  (∀ k, k ∈ JsMap.keys resolved → reachable reg ids k) →
  (∀ q, q ∈ queue → reachable reg ids q) →
  (resolve_loop fuel reg resolved queue).2 = Done final →
  ∀ k, k ∈ JsMap.keys final → reachable reg ids k.
Proof.
  revert resolved queue.
  induction fuel as [|fuel IH]; intros resolved [|i queue] Hres Hq Hrun;
    try (simpl in Hrun; congruence).
  - simpl in Hrun. by inversion Hrun; subst.
  - simpl in Hrun. by inversion Hrun; subst.
  - rewrite resolve_loop_cons in Hrun.
    destruct (JsMap.has resolved i) eqn:Hhas.
    + apply (IH resolved queue Hres); [set_solver | done].
    + destruct (descriptors reg !! i) as [c|] eqn:Hi; [|done]. simpl in Hrun.
      assert (reachable reg ids i) as Hri by set_solver.
      apply (IH (resolved ++ [(i, c)])
                (queue ++ filter (λ dep, JsMap.has (resolved ++ [(i, c)]) dep
                                         = false) (registryDeps c)));
        [| |done].
      * intros k. rewrite keys_snoc. set_solver.
      * intros q [Hin|[_ Hin]%list_elem_of_filter]%elem_of_app.
        -- set_solver.
        -- by eapply reach_dependency.
Qed.

(** The only error is the one [getComponent] throws for an identifier of
    the closure that has no descriptor. *)
Lemma resolve_loop_throw reg ids fuel resolved queue msg :
  (∀ q, q ∈ queue → reachable reg ids q) →
  (resolve_loop fuel reg resolved queue).2 = Throw msg →
  ∃ i, reachable reg ids i ∧ descriptors reg !! i = None
       ∧ getComponent reg i = inl msg.
Proof.
  revert resolved queue.
  induction fuel as [|fuel IH]; intros resolved [|i queue] Hq Hrun;
    try (simpl in Hrun; congruence).
  rewrite resolve_loop_cons in Hrun.
  assert (reachable reg ids i) as Hri by set_solver.
  destruct (JsMap.has resolved i) eqn:Hhas.
  - apply (IH resolved queue); [set_solver | done].
  - destruct (descriptors reg !! i) as [c|] eqn:Hi; simpl in Hrun.
    + eapply IH; [|exact Hrun].
      intros q [Hin|[_ Hin]%list_elem_of_filter]%elem_of_app.
      * set_solver.
      * by eapply reach_dependency.
    + exists i. unfold getComponent. rewrite Hi. by inversion Hrun.
Qed.

(** *** Termination *)

Lemma queued_by_delete (m : gmap string Component) i c :
  m !! i = Some c →
  queued_by m = length (registryDeps c) + queued_by (delete i m).
Proof.
  intros Hi. unfold queued_by.
  by rewrite <- (map_to_list_delete m i c Hi).
Qed.

(** The queue length plus the dependency lists of the descriptors not yet
    resolved bounds the iterations left. [rem] holds those descriptors. *)
Lemma resolve_loop_terminates reg fuel resolved queue
    (rem : gmap string Component) :
  (∀ i c, descriptors reg !! i = Some c → i ∉ JsMap.keys resolved →
          rem !! i = Some c) →
  length queue + queued_by rem ≤ fuel →
  terminated (resolve_loop fuel reg resolved queue).2.
Proof.
  revert resolved queue rem.
  induction fuel as [|fuel IH]; intros resolved [|i queue] rem Hrem Hfuel;
    try done.
  - simpl in Hfuel. lia.
  - rewrite resolve_loop_cons. simpl in Hfuel.
    destruct (JsMap.has resolved i) eqn:Hhas.
    + apply (IH resolved queue rem); [done | lia].
    + apply has_false in Hhas.
      destruct (descriptors reg !! i) as [c|] eqn:Hi; [|done]. simpl.
      apply (IH _ _ (delete i rem)).
      * intros k c' Hk Hfresh. rewrite keys_snoc in Hfresh.
        rewrite lookup_delete_ne by set_solver.
        apply Hrem; [done | set_solver].
      * rewrite (queued_by_delete rem i c) in Hfuel by by apply Hrem.
        rewrite length_app.
        pose proof (length_filter
          (λ dep, JsMap.has (resolved ++ [(i, c)]) dep = false)
          (registryDeps c)).
        lia.
Qed.

(** Once the loop has ended, more fuel changes nothing. *)
Lemma resolve_loop_more_fuel reg fuel fuel' resolved queue :
  terminated (resolve_loop fuel reg resolved queue).2 →
  fuel ≤ fuel' →
  resolve_loop fuel' reg resolved queue = resolve_loop fuel reg resolved queue.
Proof.
  revert fuel' resolved queue.
  induction fuel as [|fuel IH]; intros fuel' resolved [|i queue] Hterm Hle;
    try done.
  - by destruct fuel'.
  - by destruct fuel'.
  - destruct fuel' as [|fuel']; [lia|].
    rewrite !resolve_loop_cons in *.
    destruct (JsMap.has resolved i); [apply IH; [done | lia]|].
    destruct (descriptors reg !! i) as [c|]; [|done]. simpl in *.
    rewrite IH; [done | done | lia].
Qed.

(** *** The events *)

Lemma no_revisit_enqueues pushed events :
  no_revisit ((Enqueue <$> pushed) ++ events) ↔ no_revisit events.
Proof. induction pushed as [|p pushed IH]; simpl; done. Qed.

(** No event mentions an identifier that was resolved before the loop was
    entered, and none one that was fetched earlier in the loop. *)
Lemma resolve_loop_events reg fuel resolved queue :
  let events := (resolve_loop fuel reg resolved queue).1 in
  (∀ e, e ∈ events → event_id e ∉ JsMap.keys resolved) ∧ no_revisit events.
Proof.
  revert resolved queue.
  induction fuel as [|fuel IH]; intros resolved [|i queue]; simpl;
    try (split; [by intros e ?%elem_of_nil | done]).
  change (let events := (resolve_loop (S fuel) reg resolved (i :: queue)).1 in
          (∀ e, e ∈ events → event_id e ∉ JsMap.keys resolved)
          ∧ no_revisit events).
  rewrite resolve_loop_cons.
  destruct (JsMap.has resolved i) eqn:Hhas; [apply IH|].
  apply has_false in Hhas.
  destruct (descriptors reg !! i) as [c|] eqn:Hi; simpl.
  - set (resolved' := resolved ++ [(i, c)]).
    set (pushed := filter _ _).
    destruct (IH resolved' (queue ++ pushed)) as [Hfresh Hrev].
    assert (∀ e, e ∈ (Enqueue <$> pushed)
                       ++ (resolve_loop fuel reg resolved' (queue ++ pushed)).1
                 → event_id e ∉ JsMap.keys resolved') as Hlater.
    { intros e [Hin|Hin]%elem_of_app; [|by apply Hfresh].
      apply list_elem_of_fmap in Hin as (p & -> & Hp).
      apply list_elem_of_filter in Hp as [Hp _]. by apply has_false in Hp. }
    unfold resolved' in Hlater. setoid_rewrite keys_snoc in Hlater.
    split.
    + intros e [->|Hin]%elem_of_cons; [done|].
      specialize (Hlater e Hin). set_solver.
    + split; [|by apply no_revisit_enqueues].
      intros e Hin. specialize (Hlater e Hin). set_solver.
  - split; [|split; [by intros e ?%elem_of_nil | done]].
    by intros e ->%list_elem_of_singleton.
Qed.

(** *** The whole run *)

Lemma resolve_trace_terminates reg ids : terminated (resolve_trace reg ids).2.
Proof.
  apply (resolve_loop_terminates reg _ [] ids (descriptors reg)); [done|].
  unfold resolve_fuel. lia.
Qed.

Lemma values_lookup (reg : Registry) (resolved : JsMap.t Component) :
  (∀ k c, (k, c) ∈ resolved → descriptors reg !! k = Some c) →
  Forall2 (λ k c, descriptors reg !! k = Some c) (JsMap.keys resolved)
          (JsMap.values resolved).
Proof.
  induction resolved as [|[k c] resolved IH]; intros Hreg; simpl.
  - constructor.
  - constructor; [apply Hreg; left|]. apply IH.
    intros k' c' Hin. apply Hreg. by right.
Qed.

(** A completed run resolved the closure, in discovery order. *)
Lemma resolve_done_spec reg ids resolved :
  (resolve_trace reg ids).2 = Done resolved →
  let K := JsMap.keys resolved in
  NoDup K
  ∧ (∀ k c, (k, c) ∈ resolved → descriptors reg !! k = Some c)
  ∧ K = first_occurrences ∅ (ids ++ flat_map (deps_of reg) K)
  ∧ (∀ i, i ∈ K ↔ reachable reg ids i).
Proof.
  intros Hrun K.
  destruct (resolve_loop_done reg _ [] ids resolved (NoDup_nil_2) Hrun)
    as (new & Hfinal & Hnd & Hreg & Horder).
  simpl in Hfinal. subst new. fold K in Horder, Hnd.
  repeat split; try done.
  - eapply (resolve_loop_reachable reg ids _ [] ids); try done.
    + by intros k ?%elem_of_nil.
    + intros q Hq. by constructor.
  - assert (∀ x, x ∈ K ↔ x ∈ ids ++ flat_map (deps_of reg) K) as Hmem.
    { intros x. rewrite Horder at 1.
      rewrite elem_of_first_occurrences. set_solver. }
    induction 1 as [i Hi | i c dep _ IH Hc Hdep].
    + apply Hmem. set_solver.
    + apply Hmem, elem_of_app. right.
      apply list_elem_of_In, in_flat_map. exists i.
      split; [by apply list_elem_of_In|].
      apply list_elem_of_In. unfold deps_of. by rewrite Hc.
Qed.

(** A run fails only with the error [getComponent] throws for an
    identifier of the closure that has no descriptor. *)
Lemma resolve_throw_spec reg ids msg :
  (resolve_trace reg ids).2 = Throw msg →
  ∃ i, reachable reg ids i ∧ descriptors reg !! i = None
       ∧ getComponent reg i = inl msg.
Proof.
  apply resolve_loop_throw. intros q Hq. by constructor.
Qed.

Lemma resolve_closed_done reg ids :
  (∀ i, reachable reg ids i → is_Some (descriptors reg !! i)) →
  ∃ resolved, (resolve_trace reg ids).2 = Done resolved.
Proof.
  intros Hclosed. pose proof (resolve_trace_terminates reg ids) as Hterm.
  destruct (resolve_trace reg ids).2 as [resolved|msg|] eqn:Hrun;
    [eauto| |done].
  apply resolve_throw_spec in Hrun as (i & Hi & Hnone & _).
  apply Hclosed in Hi as [c Hc]. congruence.
Qed.

Lemma resolve_unknown_throws reg ids :
  (∃ i, reachable reg ids i ∧ descriptors reg !! i = None) →
  ∃ i msg, reachable reg ids i ∧ descriptors reg !! i = None
           ∧ getComponent reg i = inl msg
           ∧ (resolve_trace reg ids).2 = Throw msg.
Proof.
  intros (i & Hi & Hnone).
  pose proof (resolve_trace_terminates reg ids) as Hterm.
  destruct (resolve_trace reg ids).2 as [resolved|msg|] eqn:Hrun; [| |done].
  - destruct (resolve_done_spec reg ids resolved Hrun) as (_ & Hreg & _ & Hk).
    apply Hk in Hi.
    apply list_elem_of_fmap in Hi as ([k c] & -> & Hin).
    apply Hreg in Hin. simpl in Hnone. congruence.
  - apply resolve_throw_spec in Hrun as (j & Hj & Hjn & Hget). eauto 10.
Qed.

(** In a graph, the closure stays within the registry. *)
Lemma is_graph_closed reg ids :
  is_graph reg ids →
  ∀ i, reachable reg ids i → is_Some (descriptors reg !! i).
Proof.
  intros [Hids Hreg]. induction 1 as [i Hi | i c dep _ _ Hc Hdep].
  - by eapply Forall_forall in Hids.
  - specialize (Hreg i c Hc). simpl in Hreg.
    by eapply Forall_forall in Hreg.
Qed.

End ResolverFacts.

(** ** Theorems: dependency resolver *)
Module ResolverSpec.
Import Registry Resolver ResolverFacts.

Example resolve_card :
  resolveComponentsWithDependencies Examples.card_registry ["card"]
  = Done [Examples.card; Examples.button].
Proof. by vm_compute. Qed.

Example resolve_cycle_events :
  (resolve_trace Examples.cycle_registry ["pong"; "ping"; "pong"]).1
  = [Fetch "pong"; Enqueue "ping"; Fetch "ping"].
Proof. by vm_compute. Qed.

(** C1. Whenever every identifier of the closure has a descriptor in the
    registry (so for every graph, acyclic or not),
    [resolveComponentsWithDependencies]
    returns the descriptors of the identifiers [K] where: [K] has no
    repetition; [K] holds exactly the identifiers reachable from the
    requests; the requests, in request order, come first and what follows
    was not requested; and [K] is in discovery order, each identifier at
    its first occurrence in the sequence made of the requests followed by
    the dependency lists of the resolved descriptors in resolution order. *)
Theorem resolve_closure_in_discovery_order
    (reg : Registry) (componentIds : list string) :
  (∀ i, reachable reg componentIds i → is_Some (descriptors reg !! i)) →
  ∃ (K : list string) (allComponents : list Component),
    resolveComponentsWithDependencies reg componentIds = Done allComponents
    ∧ Forall2 (λ k c, descriptors reg !! k = Some c) K allComponents
    ∧ NoDup K
    ∧ (∀ i, i ∈ K ↔ reachable reg componentIds i)
    ∧ (∃ rest, K = first_occurrences ∅ componentIds ++ rest
               ∧ ∀ x, x ∈ rest → x ∉ componentIds)
    ∧ K = first_occurrences ∅
            (componentIds ++ flat_map (deps_of reg) K).
Proof.
  intros Hclosed.
  destruct (resolve_closed_done reg componentIds Hclosed) as [resolved Hrun].
  destruct (resolve_done_spec reg componentIds resolved Hrun)
    as (Hnd & Hreg & Horder & Hreach).
  exists (JsMap.keys resolved), (JsMap.values resolved).
  unfold resolveComponentsWithDependencies. rewrite Hrun.
  split; [done|]. split; [by apply values_lookup|]. split; [done|].
  split; [done|]. split; [|done].
  exists (first_occurrences (list_to_set componentIds ∪ ∅)
            (flat_map (deps_of reg) (JsMap.keys resolved))).
  split; [by rewrite <- first_occurrences_app|].
  intros x [_ Hx]%elem_of_first_occurrences. set_solver.
Qed.

Lemma resolve_closure_in_discovery_order_witness :
  ∃ K allComponents,
    resolveComponentsWithDependencies Examples.card_registry ["card"]
    = Done allComponents
    ∧ Forall2 (λ k c, descriptors Examples.card_registry !! k = Some c)
              K allComponents
    ∧ NoDup K
    ∧ (∀ i, i ∈ K ↔ reachable Examples.card_registry ["card"] i)
    ∧ (∃ rest, K = first_occurrences ∅ ["card"] ++ rest
               ∧ ∀ x, x ∈ rest → x ∉ ["card"])
    ∧ K = first_occurrences ∅
            (["card"] ++ flat_map (deps_of Examples.card_registry) K).
Proof.
  apply (resolve_closure_in_discovery_order Examples.card_registry ["card"]).
  apply is_graph_closed.
  apply (bool_decide_unpack _). vm_compute. exact I.
Defined.

(** C2. For every registry and every request the resolver terminates,
    with the closure or with the error of a request: the loop ends within
    the fuel of the entry point and more fuel does not change its run.
    After an identifier was fetched no later event fetches or queues it.
    When the registry holds two descriptors [A] and [B] that require each
    other and no other, every non-empty request among them resolves to the two
    descriptors, once each. *)
Theorem resolve_terminates_without_revisit
    (reg : Registry) (componentIds : list string) :
  terminated (resolveComponentsWithDependencies reg componentIds)
  ∧ (∀ fuel, resolve_fuel reg componentIds ≤ fuel →
             resolve_loop fuel reg [] componentIds
             = resolve_trace reg componentIds)
  ∧ no_revisit (resolve_trace reg componentIds).1
  ∧ ∀ A B cA cB,
      A ≠ B →
      descriptors reg = <[A := cA]> {[B := cB]} →
      registryDependencies cA = Some [B] →
      registryDependencies cB = Some [A] →
      componentIds ≠ [] →
      (∀ x, x ∈ componentIds → x = A ∨ x = B) →
      ∃ allComponents,
        resolveComponentsWithDependencies reg componentIds
        = Done allComponents
        ∧ allComponents ≡ₚ [cA; cB].
Proof.
  split; [|split; [|split]].
  - pose proof (resolve_trace_terminates reg componentIds) as Hterm.
    unfold resolveComponentsWithDependencies.
    by destruct (resolve_trace reg componentIds).2.
  - intros fuel Hfuel. apply resolve_loop_more_fuel; [|done].
    apply resolve_trace_terminates.
  - apply resolve_loop_events.
  - intros A B cA cB Hne Hreg0 HA HB Hids Hin.
    assert (descriptors reg !! A = Some cA) as HrA
      by (rewrite Hreg0; apply lookup_insert_eq).
    assert (descriptors reg !! B = Some cB) as HrB.
    { rewrite Hreg0, lookup_insert_ne by done.
      apply lookup_singleton_eq. }
    assert (∀ i, reachable reg componentIds i → i = A ∨ i = B) as Hsub.
    { induction 1 as [i Hi | i c dep _ IH Hc Hdep]; [by apply Hin|].
      unfold registryDeps in Hdep.
      destruct IH as [-> | ->]; simplify_eq; [rewrite HA in Hdep
                                             | rewrite HB in Hdep];
        simpl in Hdep; apply list_elem_of_singleton in Hdep; auto. }
    assert (reachable reg componentIds A ∧ reachable reg componentIds B)
      as [HreachA HreachB].
    { destruct componentIds as [|x l]; [done|].
      assert (reachable reg (x :: l) x) as Hx by (constructor; left).
      destruct (Hin x ltac:(left)) as [-> | ->].
      - split; [done|]. eapply reach_dependency; [exact Hx | exact HrA|].
        unfold registryDeps. rewrite HA. simpl. left.
      - split; [|done]. eapply reach_dependency; [exact Hx | exact HrB|].
        unfold registryDeps. rewrite HB. simpl. left. }
    destruct (resolve_closed_done reg componentIds) as [resolved Hrun].
    { intros i [-> | ->]%Hsub; eauto. }
    destruct (resolve_done_spec reg componentIds resolved Hrun)
      as (Hnd & Hreg & _ & Hreach).
    exists (JsMap.values resolved).
    unfold resolveComponentsWithDependencies. rewrite Hrun.
    split; [done|].
    assert (JsMap.keys resolved ≡ₚ [A; B]) as Hperm.
    { apply NoDup_Permutation; [done| |].
      - apply NoDup_cons. split; [set_solver | apply NoDup_singleton].
      - intros x. rewrite Hreach. split.
        + intros [-> | ->]%Hsub; set_solver.
        + intros [-> | ->%list_elem_of_singleton]%elem_of_cons; done. }
    assert (JsMap.values resolved
            = (λ k, default cA (descriptors reg !! k))
              <$> JsMap.keys resolved) as ->.
    { clear -Hreg. induction resolved as [|[k c] resolved IH]; [done|].
      simpl. rewrite (Hreg k c) by left. simpl. f_equal.
      apply IH. intros k' c' Hin'. apply Hreg. by right. }
    rewrite Hperm. simpl. by rewrite HrA, HrB.
Qed.

Lemma resolve_terminates_without_revisit_witness :
  ∃ allComponents,
    resolveComponentsWithDependencies Examples.cycle_registry ["ping"]
    = Done allComponents
    ∧ allComponents ≡ₚ [Examples.ping; Examples.pong].
Proof.
  refine (proj2 (proj2 (proj2 (resolve_terminates_without_revisit
                                 Examples.cycle_registry ["ping"])))
            "ping" "pong" Examples.ping Examples.pong _ _ _ _ _ _).
  - discriminate.
  - reflexivity.
  - reflexivity.
  - reflexivity.
  - discriminate.
  - intros x Hx. left. by apply list_elem_of_singleton in Hx.
Defined.

End ResolverSpec.

(** ** Facts: the installer *)
Module InstallerFacts.
Import Registry Resolver ResolverFacts Adapter Installer.

(** *** The disk *)

Lemma existsSync_true (fs : FileSystem) p :
  existsSync fs p = true ↔ is_Some (fs !! p).
Proof. unfold existsSync. by rewrite bool_decide_eq_true. Qed.

Lemma existsSync_false (fs : FileSystem) p :
  existsSync fs p = false ↔ fs !! p = None.
Proof.
  unfold existsSync. rewrite bool_decide_eq_false.
  by rewrite eq_None_not_Some.
Qed.

Lemma kept_or_made_trans dirs fs1 fs2 fs3 p :
  kept_or_made dirs fs1 fs2 p → kept_or_made dirs fs2 fs3 p →
  kept_or_made dirs fs1 fs3 p.
Proof.
  unfold kept_or_made. intros [H12|(Hn & Hd & Hin)] [H23|(Hn' & Hd' & Hin')].
  - left. congruence.
  - right. rewrite <- H12. done.
  - right. rewrite H23. done.
  - congruence.
Qed.

Lemma kept_or_made_mono dirs dirs' fs fs' p :
  (∀ d, d ∈ dirs → d ∈ dirs') →
  kept_or_made dirs fs fs' p → kept_or_made dirs' fs fs' p.
Proof. unfold kept_or_made. naive_solver. Qed.

Section facts.
Context `{Platform}.

(** [fs.mkdir] with [recursive] only creates directories, among those it
    is given, where there was nothing. *)
Lemma mkdir_recursive_change requested fs dirs p :
  kept_or_made dirs fs (mkdir_recursive requested fs dirs).2 p.
Proof.
  induction dirs as [|dir above IH]; simpl; [by left|].
  destruct (fs !! dir) as [[text|]|] eqn:Hdir; simpl; [by left..|].
  destruct (mkdir_recursive requested fs above) as [[msg|] fs'] eqn:Hrec;
    simpl in *.
  { eapply kept_or_made_mono; [|exact IH]. set_solver. }
  destruct (mkdir_refused fs' dir); simpl.
  { eapply kept_or_made_mono; [|exact IH]. set_solver. }
  destruct (decide (p = dir)) as [->|Hne].
  - right. rewrite lookup_insert_eq. split; [done|]. split; [done|]. by left.
  - eapply kept_or_made_mono; [|unfold kept_or_made;
                                 rewrite lookup_insert_ne by done; exact IH].
    set_solver.
Qed.

Lemma mkdirs_change fs dirs p : kept_or_made dirs fs (mkdirs fs dirs) p.
Proof.
  induction dirs as [|dir above IH]; simpl; [by left|].
  destruct (existsSync fs dir) eqn:Hex; [by left|].
  apply existsSync_false in Hex.
  destruct (decide (p = dir)) as [->|Hne].
  - right. rewrite lookup_insert_eq. split; [done|]. split; [done|]. by left.
  - eapply kept_or_made_mono; [|unfold kept_or_made;
                                 rewrite lookup_insert_ne by done; exact IH].
    set_solver.
Qed.

(** When it returns, the missing directories are there. *)
Lemma mkdir_recursive_ok requested fs dirs fs' :
  mkdir_recursive requested fs dirs = (None, fs') → fs' = mkdirs fs dirs.
Proof.
  revert fs'. induction dirs as [|dir above IH]; intros fs'; simpl.
  { by intros [= <-]. }
  unfold existsSync.
  destruct (fs !! dir) as [[text|]|] eqn:Hdir.
  - done.
  - intros [= <-]. by rewrite bool_decide_eq_true_2.
  - rewrite bool_decide_eq_false_2 by (by intros [? ?]).
    destruct (mkdir_recursive requested fs above) as [[msg|] fs1]; [done|].
    destruct (mkdir_refused fs1 dir); [done|].
    intros [= <-]. by rewrite (IH fs1).
Qed.

(** [writeFile] changes the path it writes to and creates directories
    above it, nothing else. *)
Lemma writeFile_change fs path content p :
  p ≠ path →
  kept_or_made (parents path) fs (writeFile fs path content).2 p.
Proof.
  intros Hne. unfold writeFile, ensureDir.
  pose proof (mkdir_recursive_change (hd EmptyString (parents path)) fs
                (parents path) p) as Hdirs.
  destruct (mkdir_recursive _ fs (parents path)) as [[msg|] fs']; [done|].
  simpl in Hdirs. eapply kept_or_made_trans; [exact Hdirs|].
  left. unfold fs_writeFile.
  destruct (fs' !! path) as [[text|]|];
    try done;
    destruct (write_refused fs' path content) as [[msg [partial|]]|]; simpl;
    by rewrite ?lookup_insert_ne.
Qed.

(** At a path where there was nothing, it only adds. *)
Lemma writeFile_grows fs path content :
  fs !! path = None → fs ⊆ (writeFile fs path content).2.
Proof.
  intros Hnone. apply map_subseteq_spec. intros p e Hp.
  assert (p ≠ path) as Hne by congruence.
  destruct (writeFile_change fs path content p Hne) as [Heq|(Hn & _)];
    congruence.
Qed.

Lemma writeFile_ok fs path content fs' :
  writeFile fs path content = (None, fs') →
  fs' = <[path := File content]> (mkdirs fs (parents path)).
Proof.
  unfold writeFile, ensureDir.
  destruct (mkdir_recursive _ fs (parents path)) as [[msg|] fs1] eqn:Hdirs;
    [done|].
  apply mkdir_recursive_ok in Hdirs as ->. unfold fs_writeFile.
  destruct (mkdirs fs (parents path) !! path) as [[text|]|]; try done;
    destruct (write_refused _ path content) as [[msg [partial|]]|]; try done;
    by intros [= <-].
Qed.

(** Nothing is ever removed. *)
Lemma mkdirs_exists fs dirs p :
  is_Some (fs !! p) → is_Some (mkdirs fs dirs !! p).
Proof.
  intros [e He]. destruct (mkdirs_change fs dirs p) as [->|(Hn & _)];
    [by exists e | congruence].
Qed.

(** *** The record of the calls *)

Lemma writes_since_app (w w' : World) new :
  writes w' = writes w ++ new → writes_since w w' = new.
Proof. unfold writes_since. intros ->. by rewrite drop_app_length. Qed.

Lemma writes_since_mk (w : World) fs deps new :
  writes_since w (mkWorld fs deps (writes w ++ new)) = new.
Proof. by apply writes_since_app. Qed.

(** *** The file loop *)

(** One iteration, spelled out. *)
Lemma install_files_cons options i targetPath file fl installed w :
  install_files options i targetPath (file :: fl) installed w =
  let filePath := join [targetPath; i; path file] in
  if existsSync (disk w) filePath && negb (force options) then
    (inl ("File already exists: " +:+ filePath), w)
  else if dryRun options then
    install_files options i targetPath fl (installed ++ [filePath]) w
  else
    match writeFile (disk w) filePath
            (processFileContent (projectInfo options) (content file)) with
    | (Some msg, fs) =>
        (inl msg,
         mkWorld fs (installedDeps w)
                 (writes w ++ [mkWrite filePath (Some msg)]))
    | (None, fs) =>
        install_files options i targetPath fl (installed ++ [filePath])
          (mkWorld fs (installedDeps w) (writes w ++ [wrote filePath]))
    end.
Proof.
  simpl. destruct (existsSync (disk w) _ && negb (force options)); [done|].
  destruct (dryRun options); simpl; [done|].
  unfold call_writeFile. by destruct (writeFile _ _ _) as [[msg|] fs].
Qed.

Lemma write_all_cons config targetPath c g fl (fs : FileSystem) :
  write_all config targetPath c (g :: fl) fs
  = write_all config targetPath c fl
      (<[target_of targetPath c g
         := File (processFileContent config (content g))]>
         (mkdirs fs (parents (target_of targetPath c g)))).
Proof. done. Qed.

(** How the loop runs: it goes through the files [done], each of which
    finds its target free unless [force] is set, and is written unless the
    run is dry; then it either reaches the end, or stops at the next file:
    because its target exists, or because writing it failed. *)
Lemma install_files_run options c targetPath fl installed w :
  ∃ done rest,
    fl = done ++ rest
    ∧ let after_writing fl' :=
        if dryRun options then disk w
        else write_all (projectInfo options) targetPath c fl' (disk w) in
      let fs := after_writing done in
      let log := if dryRun options then []
                 else wrote <$> (target_of targetPath c <$> done) in
      let run := install_files options (id c) targetPath fl installed w in
      (force options = true
       ∨ (∀ d1 g d2, done = d1 ++ g :: d2 →
                     after_writing d1 !! target_of targetPath c g = None)
         ∧ ∀ g, g ∈ done → disk w !! target_of targetPath c g = None)
      ∧ match rest with
        | [] =>
            run = (inr (installed ++ (target_of targetPath c <$> done)),
                   mkWorld fs (installedDeps w) (writes w ++ log))
        | f :: _ =>
            force options = false
            ∧ is_Some (fs !! target_of targetPath c f)
            ∧ run
              = (inl ("File already exists: " +:+ target_of targetPath c f),
                 mkWorld fs (installedDeps w) (writes w ++ log))
            ∨ dryRun options = false
              ∧ (force options = true
                 ∨ fs !! target_of targetPath c f = None)
              ∧ ∃ msg fs',
                  writeFile fs (target_of targetPath c f)
                    (processFileContent (projectInfo options) (content f))
                  = (Some msg, fs')
                  ∧ run = (inl msg,
                           mkWorld fs' (installedDeps w)
                             (writes w ++ log
                              ++ [mkWrite (target_of targetPath c f)
                                          (Some msg)]))
        end.
Proof.
  revert installed w. induction fl as [|g fl IH]; intros installed w.
  { exists [], []. split; [done|]. simpl. split.
    - right. split; [by intros [|??] ???|]. by intros g ?%elem_of_nil.
    - destruct (dryRun options); rewrite !app_nil_r; by destruct w. }
  rewrite install_files_cons. simpl. fold (target_of targetPath c g).
  set (t := target_of targetPath c g).
  destruct (existsSync (disk w) t && negb (force options)) eqn:Hcheck.
  { apply andb_true_iff in Hcheck as [Hex Hforce].
    apply existsSync_true in Hex. apply negb_true_iff in Hforce.
    exists [], (g :: fl). split; [done|]. simpl.
    split; [right; split; [by intros [|??] ???|by intros g0 ?%elem_of_nil]|].
    left.
    split; [done|]. destruct (dryRun options); rewrite !app_nil_r;
      by destruct w. }
  assert (force options = true ∨ disk w !! t = None) as Hpass.
  { apply andb_false_iff in Hcheck as [Hex|Hforce].
    - right. by apply existsSync_false.
    - left. by apply negb_false_iff. }
  destruct (dryRun options) eqn:Hdry.
  { destruct (IH (installed ++ [t]) w) as (done & rest & -> & Hfree & Hrun).
    exists (g :: done), rest. split; [done|]. simpl in *. split.
    - destruct Hpass as [?|Hnone]; [auto|].
      destruct Hfree as [?|[Hfree Hinit]]; [auto|]. right. split.
      + intros [|g' d1] g0 d2 [= ? ?]; subst; [done|]. by eapply Hfree.
      + intros g0 [->|Hin]%elem_of_cons; [done | by apply Hinit].
    - rewrite <- !app_assoc in Hrun. simpl in Hrun.
      destruct rest as [|f after]; [done|].
      destruct Hrun as [Hrun|(? & _)]; [by left | done]. }
  destruct (writeFile (disk w) t _) as [[msg|] fs1] eqn:Hwrite.
  { exists [], (g :: fl). split; [done|]. simpl.
    split; [right; split; [by intros [|??] ???|by intros g0 ?%elem_of_nil]|].
    right.
    split; [done|]. split; [done|]. exists msg, fs1.
    split; [exact Hwrite | done]. }
  pose proof (writeFile_grows (disk w) t
                (processFileContent (projectInfo options) (content g)))
    as Hgrow.
  rewrite Hwrite in Hgrow. simpl in Hgrow.
  apply writeFile_ok in Hwrite as ->.
  destruct (IH (installed ++ [t])
              (mkWorld (<[t := File (processFileContent (projectInfo options)
                                       (content g))]>
                          (mkdirs (disk w) (parents t)))
                       (installedDeps w) (writes w ++ [wrote t])))
    as (done & rest & -> & Hfree & Hrun).
  exists (g :: done), rest. split; [done|]. simpl in *. fold t. split.
  - destruct Hpass as [?|Hnone]; [auto|].
    destruct Hfree as [?|[Hfree Hinit]]; [auto|]. right. split.
    + intros [|g' d1] g0 d2 [= ? ?]; subst; [done|]. by eapply Hfree.
    + intros g0 [->|Hin]%elem_of_cons; [done|].
      eapply lookup_weaken_None; [by apply Hinit | by apply Hgrow].
  - rewrite <- !app_assoc in Hrun. simpl in Hrun.
    destruct rest as [|f after]; [done|].
    destruct Hrun as [Hrun|(_ & Hpass' & msg & fs' & Hw & Hrun)]; [by left|].
    right. split; [done|]. split; [done|]. exists msg, fs'.
    by rewrite <- !app_assoc in Hrun.
Qed.

(** *** Consequences *)

(** A dry run leaves the world as it is. *)
Lemma install_files_dry options c targetPath fl installed w :
  dryRun options = true →
  (install_files options (id c) targetPath fl installed w).2 = w.
Proof.
  intros Hdry.
  destruct (install_files_run options c targetPath fl installed w)
    as (done & rest & _ & _ & Hrun).
  rewrite Hdry in Hrun. simpl in Hrun.
  destruct rest as [|f after];
    [|destruct Hrun as [(_ & _ & Hrun)|(? & _)]; [|done]];
    rewrite Hrun; simpl; rewrite app_nil_r; by destruct w.
Qed.

(** The loop does not touch [installedDeps], and adds to the record. *)
Lemma install_files_deps options c targetPath fl installed w :
  installedDeps (install_files options (id c) targetPath fl installed w).2
  = installedDeps w.
Proof.
  destruct (install_files_run options c targetPath fl installed w)
    as (done & rest & _ & _ & Hrun). simpl in Hrun.
  destruct rest as [|f after];
    [|destruct Hrun as [(_ & _ & Hrun)|(_ & _ & msg & fs' & _ & Hrun)]];
    by rewrite Hrun.
Qed.


(** When the loop completes, it reports the target of every file, in
    order; unless the run is dry it has written them all, each by a call
    that returned. *)
Lemma install_files_inr options c targetPath fl installed w l w' :
  install_files options (id c) targetPath fl installed w = (inr l, w') →
  l = installed ++ (target_of targetPath c <$> fl)
  ∧ w' = mkWorld
           (if dryRun options then disk w
            else write_all (projectInfo options) targetPath c fl (disk w))
           (installedDeps w)
           (writes w ++ (if dryRun options then []
                         else wrote <$> (target_of targetPath c <$> fl))).
Proof.
  destruct (install_files_run options c targetPath fl installed w)
    as (done & rest & -> & _ & Hrun). simpl in Hrun.
  destruct rest as [|f after].
  - rewrite app_nil_r in *. rewrite Hrun. by intros [= <- <-].
  - destruct Hrun as [(_ & _ & ->)|(_ & _ & msg & fs' & _ & ->)]; done.
Qed.

(** Without [force] nothing that exists is touched: the disk grows. *)
Lemma install_files_keeps options c targetPath fl installed w :
  force options = false →
  disk w ⊆ disk (install_files options (id c) targetPath fl installed w).2.
Proof.
  intros Hforce. revert installed w.
  induction fl as [|g fl IH]; intros installed w; [done|].
  rewrite install_files_cons. simpl. fold (target_of targetPath c g).
  rewrite Hforce, andb_true_r.
  destruct (existsSync (disk w) _) eqn:Hex; [done|].
  apply existsSync_false in Hex.
  destruct (dryRun options); [by apply IH|].
  pose proof (writeFile_grows (disk w) (target_of targetPath c g)
                (processFileContent (projectInfo options) (content g)) Hex)
    as Hgrow.
  destruct (writeFile _ _ _) as [[msg|] fs1]; [done|]. simpl in Hgrow.
  etrans; [exact Hgrow|].
  apply (IH _ (mkWorld fs1 (installedDeps w) _)).
Qed.

(** Away from the targets, the loop only creates directories above
    them. *)
Lemma install_files_change options c targetPath fl installed w p :
  p ∉ target_of targetPath c <$> fl →
  kept_or_made (above (target_of targetPath c <$> fl)) (disk w)
    (disk (install_files options (id c) targetPath fl installed w).2) p.
Proof.
  revert installed w. induction fl as [|g fl IH]; intros installed w Hp;
    [by left|].
  simpl in Hp. apply not_elem_of_cons in Hp as [Hne Hp].
  rewrite install_files_cons. simpl. fold (target_of targetPath c g).
  destruct (existsSync (disk w) _ && negb (force options)); [by left|].
  unfold above. simpl. fold (above (target_of targetPath c <$> fl)).
  destruct (dryRun options).
  { eapply kept_or_made_mono; [|by apply IH]. set_solver. }
  pose proof (writeFile_change (disk w) (target_of targetPath c g)
                (processFileContent (projectInfo options) (content g)) p Hne)
    as Hstep.
  destruct (writeFile _ _ _) as [[msg|] fs1]; simpl in *.
  { eapply kept_or_made_mono; [|exact Hstep]. set_solver. }
  eapply kept_or_made_trans.
  - eapply kept_or_made_mono; [|exact Hstep]. set_solver.
  - eapply kept_or_made_mono; [|by apply IH]. set_solver.
Qed.

(** *** The disk after the writes *)

Lemma write_all_change config targetPath c fl (fs : FileSystem) p :
  p ∉ target_of targetPath c <$> fl →
  kept_or_made (above (target_of targetPath c <$> fl)) fs
    (write_all config targetPath c fl fs) p.
Proof.
  revert fs. induction fl as [|g fl IH]; intros fs Hp; [by left|].
  simpl in Hp. apply not_elem_of_cons in Hp as [Hne Hp].
  rewrite write_all_cons.
  unfold above. simpl. fold (above (target_of targetPath c <$> fl)).
  eapply kept_or_made_trans; [|eapply kept_or_made_mono; [|by apply IH]].
  - eapply kept_or_made_trans.
    + eapply kept_or_made_mono; [|apply mkdirs_change]. set_solver.
    + left. by rewrite lookup_insert_ne.
  - set_solver.
Qed.

Lemma write_all_exists config targetPath c fl (fs : FileSystem) p :
  is_Some (fs !! p) ∨ p ∈ target_of targetPath c <$> fl →
  is_Some (write_all config targetPath c fl fs !! p).
Proof.
  revert fs. induction fl as [|g fl IH]; intros fs Hp.
  - destruct Hp as [Hp|Hp]; [done | by apply elem_of_nil in Hp].
  - rewrite write_all_cons. apply IH.
    destruct (decide (p = target_of targetPath c g)) as [->|Hne].
    + left. rewrite lookup_insert_eq. by eexists.
    + rewrite lookup_insert_ne by done.
      destruct Hp as [Hp|Hp]; [left; by apply mkdirs_exists|]. right.
      simpl in Hp. apply elem_of_cons in Hp as [->|Hp]; done.
Qed.



(** A path that is apart from the targets is not touched by writing
    them. *)
Lemma write_all_apart config targetPath c fl (fs : FileSystem) p :
  p ∉ target_of targetPath c <$> fl →
  p ∉ above (target_of targetPath c <$> fl) →
  write_all config targetPath c fl fs !! p = fs !! p.
Proof.
  intros Hp Hup.
  by destruct (write_all_change config targetPath c fl fs p Hp)
    as [Heq|(_ & _ & Hin)].
Qed.


Lemma apart_middle paths1 p paths2 :
  apart (paths1 ++ p :: paths2) → p ∉ paths1 ∧ (p ∉ above paths1).
Proof.
  intros [Hnd Hup]. apply NoDup_app in Hnd as (_ & Hnd & _). split.
  - intros Hin. apply (Hnd p Hin). by left.
  - unfold above. rewrite list_elem_of_In, in_flat_map.
    intros (q & Hq%list_elem_of_In & Hin%list_elem_of_In).
    apply (Hup p q); set_solver.
Qed.

(** *** When the loop completes *)


(** The loop completes when its calls of [writeFile] return and either
    [force] is set or the targets are apart and absent. *)
Lemma install_files_ok options c targetPath fl installed w :
  Forall returned
    (writes_since w
       (install_files options (id c) targetPath fl installed w).2) →
  (force options = true
   ∨ apart (target_of targetPath c <$> fl)
     ∧ ∀ f, f ∈ fl → disk w !! target_of targetPath c f = None) →
  ∃ w', install_files options (id c) targetPath fl installed w
        = (inr (installed ++ (target_of targetPath c <$> fl)), w').
Proof.
  intros Hlog Hfree.
  destruct (install_files_run options c targetPath fl installed w)
    as (done & rest & -> & _ & Hrun). simpl in Hrun.
  destruct rest as [|f after].
  { rewrite app_nil_r in *. eauto. }
  exfalso.
  destruct Hrun as [(Hforce & Hex & Hrun)
                   |(Hdry & _ & msg & fs' & _ & Hrun)].
  - destruct Hfree as [?|[Hapart Hnone]]; [congruence|].
    specialize (Hnone f ltac:(set_solver)).
    destruct (dryRun options).
    + rewrite Hnone in Hex. by destruct Hex.
    + rewrite fmap_app, fmap_cons in Hapart.
      apply apart_middle in Hapart as [Hf Hup].
      rewrite write_all_apart in Hex by done.
      rewrite Hnone in Hex. by destruct Hex.
  - rewrite Hrun in Hlog. simpl in Hlog.
    rewrite writes_since_mk in Hlog.
    apply Forall_app in Hlog as [_ Hlog].
    by inversion Hlog.
Qed.

(** *** One component *)

Lemma install_one_unfold options c targetPath w :
  install_one options c targetPath w
  = let run := install_files options (id c) targetPath (files c) [] w in
    match run.1 with
    | inl msg => (failed c msg, run.2)
    | inr installedFiles =>
        let allDeps := dependencies c ++ default [] (devDependencies c) in
        (mkResult (name c) true (Some installedFiles) (Some allDeps) None,
         mkWorld (disk run.2) (foldl set_add (installedDeps w) allDeps)
                 (writes run.2))
    end.
Proof.
  unfold install_one, installComponent. simpl.
  pose proof (install_files_deps options c targetPath (files c) [] w)
    as Hdeps.
  destruct (install_files _ _ _ _ _ _) as [[msg|l] w']; simpl in *;
    [done|]. by rewrite Hdeps.
Qed.

Lemma install_one_disk options c targetPath w :
  disk (install_one options c targetPath w).2
  = disk (install_files options (id c) targetPath (files c) [] w).2.
Proof.
  rewrite install_one_unfold. simpl.
  by destruct (install_files _ _ _ _ _ _) as [[msg|l] w'].
Qed.

Lemma install_one_writes options c targetPath w :
  writes (install_one options c targetPath w).2
  = writes (install_files options (id c) targetPath (files c) [] w).2.
Proof.
  rewrite install_one_unfold. simpl.
  by destruct (install_files _ _ _ _ _ _) as [[msg|l] w'].
Qed.


Lemma install_one_deps options c targetPath w :
  installedDeps (install_one options c targetPath w).2
  = foldl set_add (installedDeps w)
      (default [] (r_dependencies (install_one options c targetPath w).1)).
Proof.
  rewrite install_one_unfold. simpl.
  pose proof (install_files_deps options c targetPath (files c) [] w)
    as Hdeps.
  by destruct (install_files _ _ _ _ _ _) as [[msg|l] w'].
Qed.

(** A dry run leaves the disk as it is and calls nothing. *)
Lemma install_one_dry options c targetPath w :
  dryRun options = true →
  disk (install_one options c targetPath w).2 = disk w
  ∧ writes (install_one options c targetPath w).2 = writes w.
Proof.
  intros Hdry. rewrite install_one_disk, install_one_writes.
  by rewrite install_files_dry.
Qed.

(** Every component gets its result, whatever happens to it. *)
Lemma install_one_result options c targetPath w :
  result_of c (install_one options c targetPath w).1.
Proof.
  rewrite install_one_unfold. unfold result_of. simpl.
  destruct (install_files _ _ _ _ _ _) as [[msg|l] w']; simpl; eauto.
Qed.

(** What a success tells. *)
Lemma install_one_succeeded options c targetPath w :
  success (install_one options c targetPath w).1 = true →
  install_one options c targetPath w
  = (mkResult (name c) true (Some (target_of targetPath c <$> files c))
       (Some (dependencies c ++ default [] (devDependencies c))) None,
     mkWorld
       (if dryRun options then disk w
        else write_all (projectInfo options) targetPath c (files c) (disk w))
       (foldl set_add (installedDeps w)
          (dependencies c ++ default [] (devDependencies c)))
       (writes w ++ (if dryRun options then []
                     else wrote <$> (target_of targetPath c <$> files c)))).
Proof.
  rewrite install_one_unfold. simpl.
  destruct (install_files _ _ _ _ _ _) as [[msg|l] w'] eqn:Hrun; [done|].
  intros _. by apply install_files_inr in Hrun as [-> ->].
Qed.

(** A component is installed when its calls of [writeFile] return and
    either [force] is set or its targets are apart and absent. *)
Lemma install_one_ok options c targetPath w :
  Forall returned (writes_since w (install_one options c targetPath w).2) →
  (force options = true
   ∨ apart (targets targetPath c)
     ∧ ∀ t, t ∈ targets targetPath c → disk w !! t = None) →
  success (install_one options c targetPath w).1 = true.
Proof.
  intros Hlog Hfree. unfold writes_since in Hlog.
  rewrite install_one_writes in Hlog.
  destruct (install_files_ok options c targetPath (files c) [] w Hlog)
    as [w' Hrun].
  { destruct Hfree as [?|[Hapart Hnone]]; [auto|]. right. split; [done|].
    intros f Hf. apply Hnone. by apply list_elem_of_fmap_2. }
  rewrite install_one_unfold. simpl. by rewrite Hrun.
Qed.

(** *** The run *)

Lemma install_loop_app options comps targetPath results w :
  (install_loop options comps targetPath results w).1
  = results ++ (install_loop options comps targetPath [] w).1
  ∧ (install_loop options comps targetPath results w).2
    = (install_loop options comps targetPath [] w).2.
Proof.
  revert results w. induction comps as [|c comps IH]; intros results w; simpl.
  - by rewrite app_nil_r.
  - destruct (install_one options c targetPath w) as [r w'].
    destruct (IH (results ++ [r]) w') as [-> ->].
    destruct (IH [r] w') as [-> ->].
    by rewrite <- app_assoc.
Qed.

(** The loop, one component at a time. *)
Lemma install_loop_cons options c comps targetPath w :
  install_loop options (c :: comps) targetPath [] w
  = let one := install_one options c targetPath w in
    let rest := install_loop options comps targetPath [] one.2 in
    (one.1 :: rest.1, rest.2).
Proof.
  simpl. destruct (install_one options c targetPath w) as [r w'].
  destruct (install_loop_app options comps targetPath [r] w') as [H1 H2].
  simpl. destruct (install_loop options comps targetPath [r] w').
  simpl in *. by subst.
Qed.



Lemma install_loop_dry options comps targetPath results w :
  dryRun options = true →
  disk (install_loop options comps targetPath results w).2 = disk w
  ∧ writes (install_loop options comps targetPath results w).2 = writes w.
Proof.
  intros Hdry. revert results w.
  induction comps as [|c comps IH]; intros results w; [done|].
  simpl. pose proof (install_one_dry options c targetPath w Hdry) as [Hd Hw].
  destruct (install_one options c targetPath w) as [result w'].
  destruct (IH (results ++ [result]) w') as [-> ->]. done.
Qed.

Lemma install_loop_results options comps targetPath results w :
  ∃ rs, (install_loop options comps targetPath results w).1 = results ++ rs
        ∧ Forall2 result_of comps rs.
Proof.
  revert results w.
  induction comps as [|c comps IH]; intros results w; simpl.
  - exists []. by rewrite app_nil_r.
  - pose proof (install_one_result options c targetPath w) as Hone.
    destruct (install_one options c targetPath w) as [result w'].
    destruct (IH (results ++ [result]) w') as (rs & -> & Hrs).
    exists (result :: rs). rewrite <- app_assoc. split; [done|].
    by constructor.
Qed.

Lemma install_loop_keeps options comps targetPath results w :
  force options = false →
  disk w ⊆ disk (install_loop options comps targetPath results w).2.
Proof.
  intros Hforce. revert results w.
  induction comps as [|c comps IH]; intros results w; [done|].
  simpl. pose proof (install_one_disk options c targetPath w) as Hdisk.
  destruct (install_one options c targetPath w) as [r w']. simpl in *.
  etrans; [|apply IH]. rewrite Hdisk. by apply install_files_keeps.
Qed.

Lemma install_loop_change options comps targetPath results w p :
  p ∉ all_targets targetPath comps →
  kept_or_made (above (all_targets targetPath comps)) (disk w)
    (disk (install_loop options comps targetPath results w).2) p.
Proof.
  revert results w. induction comps as [|c comps IH]; intros results w Hp;
    [by left|].
  simpl in *. apply not_elem_of_app in Hp as [Hc Hp].
  pose proof (install_one_disk options c targetPath w) as Hdisk.
  destruct (install_one options c targetPath w) as [r w']. simpl in *.
  apply (kept_or_made_trans _ _ (disk w')).
  - eapply kept_or_made_mono;
      [|rewrite Hdisk; by apply install_files_change].
    unfold above, targets. intros d. rewrite flat_map_app. set_solver.
  - eapply kept_or_made_mono; [|by apply IH].
    unfold above. intros d. rewrite flat_map_app. set_solver.
Qed.

(** *** A dry run beside a real run *)




(** *** When a component is a success *)



End facts.
End InstallerFacts.

(** ** Theorems: installer *)
Module InstallerSpec.
Import Registry Resolver ResolverFacts Adapter Installer InstallerFacts.

(** Options for the examples. *)
#[local] Abbreviation options_for reg f d :=
  (mkOptions (mockProjectConfig true) reg f d).
#[local] Abbreviation dir := "src/lib/components".
#[local] Abbreviation empty_world := (mkWorld ∅ [] []).

(** The repository's test, replayed: a dry run for [button] yields one
    successful result with its dependency. *)
Example test_install_button :
  (installComponents (H := plain_platform)
     (options_for (registry_of {["button" := Examples.button]}) false true)
     ["button"] dir empty_world).1
  = Done [mkResult "Button" true
            (Some ["src/lib/components/button/button.svelte"])
            (Some ["clsx"]) None].
Proof. by vm_compute. Qed.

(** Requesting [card], which requires [button]: two results, [card]
    first; the files hold the adapted content, in directories made for
    them; the recorded dependencies are those of both, without
    repetition. *)
Example install_card :
  let run := installComponents (H := plain_platform)
               (options_for Examples.card_registry false false) ["card"] dir
               empty_world in
  (component <$> default [] (match run.1 with Done r => Some r | _ => None end))
  = ["Card"; "Button"]
  ∧ installedDeps run.2 = ["clsx"; "tailwind-merge"]
  ∧ disk run.2 !! "src/lib/components/card/card.svelte"
    = Some (File "<script>import B from '$lib/components/button'</script>")
  ∧ disk run.2 !! "src/lib/components/card" = Some Directory
  ∧ writes run.2 = [wrote "src/lib/components/card/card.svelte";
                    wrote "src/lib/components/button/button.svelte"].
Proof. repeat split; by vm_compute. Qed.

(** A file at the path of the directory of an earlier file: the real run
    finds the directory it made and stops there, the dry run does not. *)
Example install_nested :
  (install_one (H := plain_platform)
     (options_for Examples.nested_registry false false) Examples.nested dir
     empty_world).1
  = failed Examples.nested
      "File already exists: src/lib/components/nested/a"
  ∧ success (install_one (H := plain_platform)
               (options_for Examples.nested_registry false true)
               Examples.nested dir empty_world).1 = true.
Proof. split; by vm_compute. Qed.






(** C6. When a requested identifier, or one reachable from the requests,
    has no descriptor in the registry, [installComponents] throws what
    [registry.getComponent] throws for such an identifier of the closure:
    the not-found error, unless the request for it failed otherwise. It
    returns no results and leaves the world as it was: the disk, the
    recorded dependencies, and no call of [writeFile]. *)
Theorem installComponents_unknown_aborts `{Platform}
    (options : InstallerOptions) (componentIds : list string)
    (targetPath : string) (w : World) :
  (∃ i, reachable (registry options) componentIds i
        ∧ descriptors (registry options) !! i = None) →
  ∃ i msg,
    reachable (registry options) componentIds i
    ∧ descriptors (registry options) !! i = None
    ∧ getComponent (registry options) i = inl msg
    ∧ (failures (registry options) !! i = None → msg = not_found i)
    ∧ installComponents options componentIds targetPath w = (Throw msg, w).
Proof.
  intros Hunknown.
  destruct (resolve_unknown_throws _ _ Hunknown)
    as (i & msg & Hi & Hnone & Hget & Hrun).
  exists i, msg. split; [done|]. split; [done|]. split; [done|]. split.
  - intros Hfail. unfold getComponent in Hget.
    rewrite Hnone, Hfail in Hget. simpl in Hget. congruence.
  - unfold installComponents, resolveComponentsWithDependencies.
    by rewrite Hrun.
Qed.

Lemma installComponents_unknown_aborts_witness :
  ∃ i, reachable Examples.card_registry ["card"; "tooltip"] i
       ∧ descriptors Examples.card_registry !! i = None
       ∧ installComponents (H := plain_platform)
           (options_for Examples.card_registry false false)
           ["card"; "tooltip"] dir empty_world
         = (Throw (not_found i), empty_world).
Proof.
  destruct (installComponents_unknown_aborts (H := plain_platform)
              (options_for Examples.card_registry false false)
              ["card"; "tooltip"] dir empty_world)
    as (i & msg & Hi & Hnone & _ & Hmsg & Hrun).
  - exists "tooltip". split; [|by vm_compute].
    constructor. right. left.
  - exists i. split; [done|]. split; [done|].
    rewrite Hrun, Hmsg; [done|]. apply lookup_empty.
Defined.




End InstallerSpec.

(** ** Facts: project detector *)
Module AnalyzerFacts.
Import Analyzer.

Section facts.
Context `{FsView}.

(** What [List.find] returns is the first candidate that exists. *)
Lemma find_first (dir : Path) names name :
  List.find (λ n, existsSync (join dir [n])) names = Some name →
  ∃ earlier later,
    names = earlier ++ name :: later
    ∧ existsSync (join dir [name]) = true
    ∧ ∀ n, n ∈ earlier → existsSync (join dir [n]) = false.
Proof.
  induction names as [|n names IH]; simpl; [done|].
  destruct (existsSync (join dir [n])) eqn:Hn.
  - intros [= ->]. exists [], names. repeat split; [done|].
    by intros n ?%elem_of_nil.
  - intros (earlier & later & -> & Hname & Hearlier)%IH.
    exists (n :: earlier), later. repeat split; [done|].
    intros n' [->|Hin]%elem_of_cons; auto.
Qed.

Lemma find_none (dir : Path) names :
  List.find (λ n, existsSync (join dir [n])) names = None ↔
  ∀ n, n ∈ names → existsSync (join dir [n]) = false.
Proof.
  induction names as [|n names IH]; simpl.
  - split; [by intros _ n ?%elem_of_nil | done].
  - destruct (existsSync (join dir [n])) eqn:Hn.
    + split; [done|]. intros Hall. rewrite Hall in Hn; [done | by left].
    + rewrite IH. split.
      * intros Hall n' [->|Hin]%elem_of_cons; auto.
      * intros Hall n' Hin. apply Hall. by right.
Qed.

(** [findUp] finds nothing exactly when no directory from the start up to,
    but not including, the root holds a candidate. *)
Lemma findUp_None names (dir : Path) :
  findUp names dir = None ↔
  ∀ level, level ≠ root → level `suffix_of` dir →
           ∀ n, n ∈ names → existsSync (join level [n]) = false.
Proof.
  induction dir as [|seg parent IH].
  - split; [|done]. intros _ level Hne Hsuf.
    apply suffix_nil_inv in Hsuf. done.
  - cbn [findUp].
    destruct (List.find _ names) as [name|] eqn:Hfind.
    + split; [done|]. intros Hall.
      apply find_first in Hfind as (? & ? & -> & Hname & _).
      rewrite (Hall (seg :: parent)) in Hname; [done|done|done|set_solver].
    + rewrite IH. rewrite find_none in Hfind. split.
      * intros Hall [|a level] Hne Hsuf; [done|].
        apply suffix_cons_inv in Hsuf as [[= -> ->]|Hsuf]; auto.
      * intros Hall level Hne Hsuf. apply Hall; [done|].
        by apply suffix_cons_r.
Qed.

(** What [findUp] finds is the first existing candidate of the nearest
    directory, below the root, that holds one. *)
Lemma findUp_Some names (dir found : Path) :
  findUp names dir = Some found →
  ∃ level name earlier later,
    level ≠ root ∧ level `suffix_of` dir
    ∧ found = join level [name]
    ∧ names = earlier ++ name :: later
    ∧ existsSync found = true
    ∧ (∀ n, n ∈ earlier → existsSync (join level [n]) = false)
    ∧ ∀ nearer, nearer `suffix_of` dir → length level < length nearer →
                ∀ n, n ∈ names → existsSync (join nearer [n]) = false.
Proof.
  induction dir as [|seg parent IH]; [done|]. cbn [findUp].
  destruct (List.find _ names) as [name|] eqn:Hfind.
  - intros [= <-].
    apply find_first in Hfind as (earlier & later & -> & Hname & Hearlier).
    exists (seg :: parent), name, earlier, later.
    repeat split; try done.
    intros nearer Hsuf Hlen. apply suffix_length in Hsuf. lia.
  - intros (level & name & earlier & later & Hne & Hsuf & -> & -> & Hname
            & Hearlier & Hnearer)%IH.
    exists level, name, earlier, later.
    repeat split; try done; [by apply suffix_cons_r|].
    intros [|a nearer] Hsuf' Hlen; [simpl in Hlen; lia|].
    apply suffix_cons_inv in Hsuf' as [[= -> ->]|Hsuf'];
      [by apply find_none | by apply Hnearer].
Qed.

(** [analyze] reports the missing configuration exactly when [findUp]
    finds none, provided reading [package.json] never fails with that very
    message. *)
Lemma analyze_no_config (cwd : Path) :
  (∀ p, packageJsonSass p ≠ inl no_config_error) →
  analyze cwd = mkAnalysis false None (Some no_config_error)
  ↔ findSvelteConfig cwd = None.
Proof.
  intros Hmsg. unfold analyze.
  destruct (findSvelteConfig cwd) as [found|]; [|done].
  split; [|done].
  destruct (detectStyling cwd) as [msg|styling] eqn:Hstyle; [|done].
  intros [= ->]. unfold detectStyling in Hstyle.
  destruct (findUp _ cwd); [done|].
  destruct (existsSync (join cwd ["package.json"])); [|done].
  destruct (packageJsonSass _) as [msg|[]] eqn:Hp; [|done..].
  injection Hstyle as ->. by apply Hmsg in Hp.
Qed.

(** The search of the specification differs from [findUp] only at the
    root directory. *)
Lemma findUp_find_up_spec names (dir : Path) :
  (∀ n, n ∈ names → existsSync (join root [n]) = false) →
  find_up_spec names dir = findUp names dir.
Proof.
  intros Hroot. induction dir as [|seg parent IH];
    cbn [find_up_spec findUp].
  - pose proof (proj2 (find_none root names) Hroot) as Hfind.
    unfold root in Hfind. by rewrite Hfind.
  - destruct (List.find _ names); [done | apply IH].
Qed.

End facts.
End AnalyzerFacts.

(** ** Theorems: project detector *)
Module AnalyzerSpec.
Import Analyzer AnalyzerFacts.

(** C9, at the failing input. The disk holds [/svelte.config.js] and
    nothing else. Started in the root directory, or in [/proj], the walk
    through every level up to the root finds the file at the root level,
    yet [analyze] reports that no configuration was found: the loop of
    [findUp] ends when it reaches the root, before looking into it. *)
Theorem analyze_misses_config_in_root :
  let view := view_of [["svelte.config.js"]] in
  let candidates := ["svelte.config.js"; "svelte.config.ts"] in
  find_up_spec (H := view) candidates root = Some ["svelte.config.js"]
  ∧ analyze (H := view) root = mkAnalysis false None (Some no_config_error)
  ∧ find_up_spec (H := view) candidates ["proj"] = Some ["svelte.config.js"]
  ∧ analyze (H := view) ["proj"]
    = mkAnalysis false None (Some no_config_error).
Proof. repeat split; by vm_compute. Qed.

End AnalyzerSpec.

(** ** Further properties: content adapter *)
Module AdapterExtra.
Import Adapter AdapterFacts AdapterRules AdapterWords.

#[local] Abbreviation alias_rule :=
  (replace_all "$components/" "$lib/components/").
#[local] Abbreviation sq_rule := (replace_all ".ts'" ".js'").
#[local] Abbreviation dq_rule := (replace_all ts_dq js_dq).

(** A replacement as long as the pattern keeps the length. *)
Lemma replace_all_same_length p0 pt rp s :
  String.length rp = String.length (String p0 pt) →
  String.length (replace_all (String p0 pt) rp s) = String.length s.
Proof.
  intros Hlen.
  apply (replace_all_scan_ind p0 pt rp
           (λ s r, String.length r = String.length s)).
  - done.
  - intros c s' rest E IH. apply strip_prefix_length in E.
    rewrite length_append', IH, E, Hlen. done.
  - intros c s' E IH. simpl. by rewrite IH.
Qed.

Lemma no_char_eqb h c s :
  no_char h s = true → no_char c s = false → Ascii.eqb c h = false.
Proof.
  induction s as [|d s IH]; simpl; [done|].
  intros [Hd Hs]%andb_true_iff Hc.
  destruct (Ascii.eqb_spec c h) as [->|]; [|done].
  by rewrite Hd, Hs in Hc.
Qed.

Lemma no_char_sub h s t :
  no_char h s = true → chars_in t s = true → no_char h t = true.
Proof.
  intros Hs. induction t as [|c t IH]; simpl; [done|].
  intros [Hc Ht]%andb_true_iff. apply negb_true_iff in Hc.
  rewrite (IH Ht), andb_true_r. apply negb_true_iff.
  rewrite Ascii.eqb_sym. by eapply no_char_eqb.
Qed.

Lemma replace_all_at_foreign p0 pt rt h u v :
  foreign h = true →
  chars_in (String p0 pt) ("$lib/components.ts'" +:+ dquote) = true →
  replace_all (String p0 pt) (String p0 rt) (u +:+ String h v)
  = replace_all (String p0 pt) (String p0 rt) u
    +:+ String h (replace_all (String p0 pt) (String p0 rt) v).
Proof.
  intros Hh Hin. pose proof (no_char_sub _ _ _ Hh Hin) as Hpat.
  simpl in Hpat. apply andb_true_iff in Hpat as [Hp0 Hpt].
  apply negb_true_iff in Hp0. rewrite Ascii.eqb_sym in Hp0.
  rewrite replace_all_app by done. f_equal.
  apply replace_all_skip. simpl. by rewrite Hp0.
Qed.

(** X1. The adapted text never holds the components alias: for every
    configuration and every input, ["$components/"] does not occur in the
    result of [processFileContent]. *)
Theorem processFileContent_no_alias (config : ProjectConfig) (x : string) :
  occurs "$components/" (processFileContent config x) = false.
Proof. apply (processFileContent_clean config x). Qed.

(** X2. The texts that [processFileContent] returns unchanged are exactly
    those that hold none of the patterns it rewrites under the
    configuration: no components alias and, without static typing, no
    typed extension before a single or a double quote. *)
Theorem processFileContent_fixpoints (config : ProjectConfig) (x : string) :
  processFileContent config x = x
  ↔ occurs "$components/" x = false
    ∧ (typescript config = false →
       occurs ".ts'" x = false ∧ occurs ts_dq x = false).
Proof.
  split.
  - intros Hx. pose proof (processFileContent_clean config x) as Hclean.
    simpl in Hclean. by rewrite Hx in Hclean.
  - intros [Halias Hext]. destruct (typescript config) eqn:Hts.
    + rewrite processFileContent_typed by done.
      by apply replace_all_absent.
    + destruct (Hext eq_refl) as [Hsq Hdq].
      rewrite processFileContent_untyped by done.
      rewrite (replace_all_absent _ _ _ x Halias).
      rewrite (replace_all_absent _ _ _ x Hsq).
      by apply replace_all_absent.
Qed.

(** X3. Adaptation never shortens a text, and keeps its length exactly
    when the input holds no components alias: the extension rules replace
    one character by one, the alias rule lengthens each alias. *)
Theorem processFileContent_length (config : ProjectConfig) (x : string) :
  String.length x ≤ String.length (processFileContent config x)
  ∧ (String.length (processFileContent config x) = String.length x
     ↔ occurs "$components/" x = false).
Proof.
  assert (String.length (processFileContent config x)
          = String.length (alias_rule x)) as ->.
  { destruct (typescript config) eqn:Hts.
    - by rewrite processFileContent_typed.
    - rewrite processFileContent_untyped by done.
      unfold ts_dq, js_dq.
      rewrite (replace_all_same_length ".") by reflexivity.
      by rewrite (replace_all_same_length ".") by reflexivity. }
  destruct (replace_all_longer "$" "components/" "$lib/components/" x)
    as [Hle Hlt]; [simpl; lia|].
  split; [done|]. split.
  - intros Heq. destruct (occurs "$components/" x); [|done].
    specialize (Hlt eq_refl). lia.
  - intros Ho. by rewrite (replace_all_absent _ _ _ x Ho).
Qed.

(** X4. Adaptation works piece by piece: a character that is in none of
    the patterns (a newline, a space, a semicolon) separates the text into
    parts that are adapted on their own. *)
Theorem processFileContent_splits (config : ProjectConfig) (h : ascii)
    (u v : string) :
  foreign h = true →
  processFileContent config (u +:+ String h v)
  = processFileContent config u +:+ String h (processFileContent config v).
Proof.
  intros Hh.
  destruct (typescript config) eqn:Hts.
  - rewrite !processFileContent_typed by done.
    by apply replace_all_at_foreign.
  - rewrite !processFileContent_untyped by done. unfold ts_dq, js_dq.
    by rewrite !replace_all_at_foreign.
Qed.

Lemma processFileContent_splits_witness :
  processFileContent (mockProjectConfig false)
    ("import a from './a.ts'" +:+ String "010" "import b from '$components/b'")
  = processFileContent (mockProjectConfig false) "import a from './a.ts'"
    +:+ String "010"
          (processFileContent (mockProjectConfig false)
             "import b from '$components/b'").
Proof.
  apply (processFileContent_splits (mockProjectConfig false) "010").
  reflexivity.
Defined.

End AdapterExtra.

(** ** Further properties: dependency resolver *)
Module ResolverExtra.
Import Registry Resolver ResolverFacts ResolverWords.

Lemma fetched_enqueues pushed events :
  fetched ((Enqueue <$> pushed) ++ events) = fetched events.
Proof. induction pushed as [|p pushed IH]; simpl; done. Qed.

(** The calls of a run: one per new entry when it completes; when it
    throws, the call that failed is the last event and every earlier call
    was answered. *)
Lemma resolve_loop_fetched reg fuel resolved queue :
  match (resolve_loop fuel reg resolved queue).2 with
  | Done final =>
      JsMap.keys final
      = JsMap.keys resolved
        ++ fetched (resolve_loop fuel reg resolved queue).1
  | Throw msg =>
      ∃ earlier i,
        (resolve_loop fuel reg resolved queue).1 = earlier ++ [Fetch i]
        ∧ getComponent reg i = inl msg
        ∧ Forall (λ j, is_Some (descriptors reg !! j)) (fetched earlier)
  | OutOfFuel => True
  end.
Proof.
  revert resolved queue.
  induction fuel as [|fuel IH]; intros resolved [|i queue];
    [simpl; by rewrite app_nil_r | done | simpl; by rewrite app_nil_r |].
  change (match (resolve_loop (S fuel) reg resolved (i :: queue)).2 with
          | Done final =>
              JsMap.keys final
              = JsMap.keys resolved
                ++ fetched (resolve_loop (S fuel) reg resolved (i :: queue)).1
          | Throw msg =>
              ∃ earlier j,
                (resolve_loop (S fuel) reg resolved (i :: queue)).1
                = earlier ++ [Fetch j]
                ∧ getComponent reg j = inl msg
                ∧ Forall (λ j, is_Some (descriptors reg !! j))
                         (fetched earlier)
          | OutOfFuel => True
          end).
  rewrite resolve_loop_cons.
  destruct (JsMap.has resolved i) eqn:Hhas; [apply IH|].
  apply has_false in Hhas.
  destruct (descriptors reg !! i) as [c|] eqn:Hi; simpl.
  - set (pushed := filter _ _).
    specialize (IH (resolved ++ [(i, c)]) (queue ++ pushed)).
    destruct (resolve_loop fuel reg _ _) as [events [final|msg|]];
      simpl in *; [| |done].
    + change (JsMap.keys final
              = JsMap.keys resolved
                ++ i :: fetched ((Enqueue <$> pushed) ++ events)).
      rewrite fetched_enqueues, IH, keys_snoc, <- app_assoc. done.
    + destruct IH as (earlier & j & -> & Hj & Hearlier).
      exists (Fetch i :: (Enqueue <$> pushed) ++ earlier), j.
      split; [simpl; by rewrite app_assoc|]. split; [done|].
      change (Forall (λ j, is_Some (descriptors reg !! j))
                (i :: fetched ((Enqueue <$> pushed) ++ earlier))).
      rewrite fetched_enqueues. constructor; [by eexists | done].
  - exists [], i. unfold getComponent. rewrite Hi. repeat split; done.
Qed.

Lemma first_occurrences_seen seen l :
  (∀ x, x ∈ l → x ∈ seen) → first_occurrences seen l = [].
Proof.
  induction l as [|y l IH]; intros Hseen; [done|]. simpl.
  rewrite bool_decide_eq_true_2 by set_solver. apply IH. set_solver.
Qed.

Lemma entries_determined (reg : Registry) (m1 m2 : JsMap.t Component) :
  JsMap.keys m1 = JsMap.keys m2 →
  (∀ k c, (k, c) ∈ m1 → descriptors reg !! k = Some c) →
  (∀ k c, (k, c) ∈ m2 → descriptors reg !! k = Some c) →
  m1 = m2.
Proof.
  revert m2. induction m1 as [|[k c] m1 IH]; intros [|[k' c'] m2] Hk H1 H2;
    try done.
  injection Hk as <- Hk.
  assert (c = c') as <-.
  { specialize (H1 k c ltac:(left)). specialize (H2 k c' ltac:(left)).
    congruence. }
  f_equal. apply IH; [done| |].
  - intros k0 c0 Hin. apply H1. by right.
  - intros k0 c0 Hin. apply H2. by right.
Qed.

Lemma reachable_trans reg ids ids' i :
  (∀ j, j ∈ ids' → reachable reg ids j) →
  reachable reg ids' i → reachable reg ids i.
Proof.
  intros Hids. induction 1 as [i Hi | i c dep _ IH Hc Hdep]; [by apply Hids|].
  by eapply reach_dependency.
Qed.

(** X5. A completed resolution calls [registry.getComponent] exactly once
    per returned descriptor and for nothing else: the identifiers fetched,
    in call order, are pairwise distinct and the i-th returned descriptor
    is the registry's answer for the i-th identifier fetched. *)
Theorem resolve_fetches_each_once (reg : Registry)
    (componentIds : list string) (allComponents : list Component) :
  resolveComponentsWithDependencies reg componentIds = Done allComponents →
  let calls := fetched (resolve_trace reg componentIds).1 in
  NoDup calls
  ∧ Forall2 (λ i c, descriptors reg !! i = Some c) calls allComponents.
Proof.
  unfold resolveComponentsWithDependencies.
  destruct (resolve_trace reg componentIds).2 as [resolved| |] eqn:Hrun;
    [|done..].
  intros [= <-]. simpl.
  pose proof (resolve_loop_fetched reg (resolve_fuel reg componentIds) []
                componentIds) as Hcalls.
  fold (resolve_trace reg componentIds) in Hcalls. rewrite Hrun in Hcalls.
  simpl in Hcalls. rewrite <- Hcalls.
  destruct (resolve_done_spec reg componentIds resolved Hrun)
    as (Hnd & Hreg & _).
  split; [done | by apply values_lookup].
Qed.

Lemma resolve_fetches_each_once_witness :
  let calls :=
    fetched (resolve_trace Examples.card_registry ["card"; "button"]).1 in
  NoDup calls
  ∧ Forall2 (λ i c, descriptors Examples.card_registry !! i = Some c) calls
            [Examples.card; Examples.button].
Proof.
  apply (resolve_fetches_each_once Examples.card_registry
           ["card"; "button"] [Examples.card; Examples.button]).
  by vm_compute.
Defined.

(** X6. A resolution that throws stops at the first call of
    [registry.getComponent] that fails: that call is the last event of the
    run, and what the resolution throws is what the call threw, unchanged:
    the not-found error when the response was not [ok], the error of
    [fetch], of [response.json] or of the schema when one of them threw.
    The identifier had not been asked for before, and every earlier call
    returned a descriptor. *)
Theorem resolve_aborts_at_first_failure (reg : Registry)
    (componentIds : list string) (msg : string) :
  resolveComponentsWithDependencies reg componentIds = Throw msg →
  ∃ earlier i,
    (resolve_trace reg componentIds).1 = earlier ++ [Fetch i]
    ∧ getComponent reg i = inl msg
    ∧ msg = default (not_found i) (failures reg !! i)
    ∧ (i ∉ fetched earlier)
    ∧ Forall (λ j, ∃ c, getComponent reg j = inr c) (fetched earlier).
Proof.
  unfold resolveComponentsWithDependencies.
  pose proof (resolve_loop_fetched reg (resolve_fuel reg componentIds) []
                componentIds) as Hcalls.
  pose proof (resolve_loop_events reg (resolve_fuel reg componentIds) []
                componentIds) as [_ Hrev].
  fold (resolve_trace reg componentIds) in Hcalls, Hrev.
  destruct (resolve_trace reg componentIds).2 as [resolved|msg'|];
    [done| |done].
  intros [= <-]. destruct Hcalls as (earlier & i & Htrace & Hget & Hearlier).
  exists earlier, i. split; [done|]. split; [done|].
  assert (descriptors reg !! i = None) as Hnone.
  { unfold getComponent in Hget. by destruct (descriptors reg !! i). }
  split; [|split].
  - unfold getComponent in Hget. rewrite Hnone in Hget. congruence.
  - intros Hin. eapply Forall_forall in Hearlier; [|exact Hin].
    rewrite Hnone in Hearlier. by destruct Hearlier.
  - eapply Forall_impl; [exact Hearlier|]. intros j [c Hc].
    exists c. unfold getComponent. by rewrite Hc.
Qed.

Lemma resolve_aborts_at_first_failure_witness :
  ∃ earlier i,
    (resolve_trace Examples.flaky_registry ["card"]).1 = earlier ++ [Fetch i]
    ∧ getComponent Examples.flaky_registry i = inl "fetch failed"
    ∧ "fetch failed"
      = default (not_found i) (failures Examples.flaky_registry !! i)
    ∧ (i ∉ fetched earlier)
    ∧ Forall (λ j, ∃ c, getComponent Examples.flaky_registry j = inr c)
             (fetched earlier).
Proof.
  apply (resolve_aborts_at_first_failure Examples.flaky_registry ["card"]).
  by vm_compute.
Defined.

(** X7. Resolving what a resolution returned changes nothing: requesting
    the identifiers of a completed resolution, in its order, resolves to
    the same entries in the same order. *)
Theorem resolve_resolved (reg : Registry) (componentIds : list string)
    (resolved : JsMap.t Component) :
  (resolve_trace reg componentIds).2 = Done resolved →
  (resolve_trace reg (JsMap.keys resolved)).2 = Done resolved.
Proof.
  intros Hrun.
  destruct (resolve_done_spec reg componentIds resolved Hrun)
    as (Hnd & Hreg & Horder & Hreach).
  set (K := JsMap.keys resolved) in *.
  assert (∀ i, reachable reg K i → i ∈ K) as Hclosed.
  { intros i Hi. apply Hreach. eapply reachable_trans; [|exact Hi].
    intros j Hj. by apply Hreach. }
  destruct (resolve_closed_done reg K) as [resolved' Hrun'].
  { intros i Hi%Hclosed.
    apply list_elem_of_fmap in Hi as ([k c] & -> & Hin). eauto. }
  rewrite Hrun'. f_equal.
  destruct (resolve_done_spec reg K resolved' Hrun')
    as (Hnd' & Hreg' & Horder' & Hreach').
  apply (entries_determined reg); [|done..].
  rewrite Horder', first_occurrences_app.
  rewrite first_occurrences_id; [|done|set_solver].
  rewrite first_occurrences_seen; [by rewrite app_nil_r|].
  intros x Hx. apply elem_of_union. left. apply elem_of_list_to_set.
  apply Hclosed.
  apply list_elem_of_In, in_flat_map in Hx as (k & Hk & Hx).
  apply list_elem_of_In in Hk, Hx.
  unfold deps_of in Hx.
  destruct (descriptors reg !! k) as [c|] eqn:Hc; [|by inversion Hx].
  eapply reach_dependency; [|exact Hc|exact Hx]. by apply Hreach'.
Qed.

Lemma resolve_resolved_witness :
  (resolve_trace Examples.card_registry ["card"; "button"]).2
  = Done [("card", Examples.card); ("button", Examples.button)].
Proof.
  apply (resolve_resolved Examples.card_registry ["card"]
           [("card", Examples.card); ("button", Examples.button)]).
  by vm_compute.
Defined.

(** X8. A resolution never returns more descriptors than the registry
    holds. *)
Theorem resolve_bounded (reg : Registry) (componentIds : list string)
    (allComponents : list Component) :
  resolveComponentsWithDependencies reg componentIds = Done allComponents →
  length allComponents ≤ size (descriptors reg).
Proof.
  unfold resolveComponentsWithDependencies.
  destruct (resolve_trace reg componentIds).2 as [resolved| |] eqn:Hrun;
    [|done..].
  intros [= <-].
  destruct (resolve_done_spec reg componentIds resolved Hrun)
    as (Hnd & Hreg & _).
  unfold JsMap.values. rewrite length_fmap.
  rewrite <- (length_fmap fst resolved).
  fold (JsMap.keys resolved).
  rewrite <- (size_list_to_set (C := gset string) _ Hnd).
  rewrite <- size_dom. apply subseteq_size.
  intros k Hk%elem_of_list_to_set.
  apply list_elem_of_fmap in Hk as ([k' c] & -> & Hin).
  apply elem_of_dom. eauto.
Qed.

Lemma resolve_bounded_witness :
  2 ≤ size (descriptors Examples.cycle_registry).
Proof.
  apply (resolve_bounded Examples.cycle_registry ["pong"]
           [Examples.pong; Examples.ping]).
  by vm_compute.
Defined.

End ResolverExtra.

(** ** Further properties: installer *)
Module InstallerExtra.
Import Registry Resolver ResolverFacts ResolverWords Adapter Installer
       InstallerFacts Dependencies.

#[local] Abbreviation options_for reg f d :=
  (mkOptions (mockProjectConfig true) reg f d).
#[local] Abbreviation dir := "src/lib/components".
#[local] Abbreviation empty_world := (mkWorld ∅ [] []).

Section facts.
Context `{Platform}.

Lemma install_loop_Forall options (P : InstallResult → Prop) comps
    targetPath results w :
  (∀ c w, P (install_one options c targetPath w).1) →
  Forall P results →
  Forall P (install_loop options comps targetPath results w).1.
Proof.
  intros Hone. revert results w.
  induction comps as [|c comps IH]; intros results w Hres; [done|].
  simpl. pose proof (Hone c w) as Hc.
  destruct (install_one options c targetPath w) as [r w'].
  apply IH. apply Forall_app. split; [done|]. by constructor.
Qed.

Lemma foldl_set_add (s l : list string) :
  foldl set_add s l = s ++ first_occurrences (list_to_set s) l.
Proof.
  revert s. induction l as [|x l IH]; intros s; simpl.
  - by rewrite app_nil_r.
  - rewrite IH. unfold set_add.
    case_bool_decide as Hx.
    + by rewrite bool_decide_eq_true_2 by set_solver.
    + rewrite bool_decide_eq_false_2 by set_solver.
      rewrite <- app_assoc. simpl. do 3 f_equal. set_solver.
Qed.

Lemma install_loop_deps options comps targetPath w :
  installedDeps (install_loop options comps targetPath [] w).2
  = foldl set_add (installedDeps w)
      (recorded (install_loop options comps targetPath [] w).1).
Proof.
  revert w. induction comps as [|c comps IH]; intros w; [done|].
  rewrite install_loop_cons. simpl.
  rewrite IH, install_one_deps. unfold recorded. simpl.
  by rewrite foldl_app.
Qed.

Lemma installComponents_deps options componentIds targetPath w w' results :
  installComponents options componentIds targetPath w = (Done results, w') →
  installedDeps w'
  = installedDeps w
    ++ first_occurrences (list_to_set (installedDeps w)) (recorded results).
Proof.
  unfold installComponents.
  destruct (resolveComponentsWithDependencies _ _) as [comps|msg|]; [|done..].
  pose proof (install_loop_deps options comps targetPath w) as Hdeps.
  destruct (install_loop options comps targetPath [] w) as [results0 w0].
  intros [= <- <-]. simpl in *. by rewrite Hdeps, foldl_set_add.
Qed.

Lemma installComponents_dry options componentIds targetPath w :
  dryRun options = true →
  disk (installComponents options componentIds targetPath w).2 = disk w
  ∧ writes (installComponents options componentIds targetPath w).2
    = writes w.
Proof.
  intros Hdry. unfold installComponents.
  destruct (resolveComponentsWithDependencies _ _) as [comps|msg|]; [|done..].
  pose proof (install_loop_dry options comps targetPath [] w Hdry) as Hd.
  by destruct (install_loop options comps targetPath [] w).
Qed.

Lemma installDependencies_new `{Shell} options componentIds targetPath
    w w' results :
  installedDeps w = [] →
  installComponents options componentIds targetPath w = (Done results, w') →
  let pm := packageManager (projectInfo options) in
  let command :=
    (match pm with npm => "install" | _ => "add" end)
    :: first_occurrences ∅ (recorded results) in
  installDependencies options w'
  = match recorded results with
    | [] => ([], Done tt)
    | _ => ([mkInvocation (manager_name pm) command],
            match execa (manager_name pm) command with
            | None => Done tt
            | Some msg => Throw msg
            end)
    end.
Proof.
  intros Hnew Hrun pm command.
  pose proof (installComponents_deps _ _ _ _ _ _ Hrun) as Hdeps.
  rewrite Hnew in Hdeps. simpl in Hdeps.
  unfold installDependencies. rewrite Hdeps. fold pm.
  assert (installCmd pm (first_occurrences ∅ (recorded results)) = command)
    as -> by (unfold command; by destruct pm).
  unfold command. by destruct (recorded results).
Qed.

End facts.

(** X9. A successful result tells what was done: it lists the target path
    of every file of the component, in order, and the [dependencies]
    followed by the [devDependencies]; unless the run was dry, [writeFile]
    was called for each file, in order, and returned, and the disk holds
    the adapted files in their directories; the dependencies are recorded
    in [installedDeps], dry run or not. *)
Theorem install_one_success `{Platform} (options : InstallerOptions)
    (c : Component) (targetPath : string) (w : World) :
  success (install_one options c targetPath w).1 = true →
  let allDeps := dependencies c ++ default [] (devDependencies c) in
  (install_one options c targetPath w).1
  = mkResult (name c) true (Some (target_of targetPath c <$> files c))
             (Some allDeps) None
  ∧ disk (install_one options c targetPath w).2
    = (if dryRun options then disk w
       else write_all (projectInfo options) targetPath c (files c) (disk w))
  ∧ installedDeps (install_one options c targetPath w).2
    = foldl set_add (installedDeps w) allDeps
  ∧ writes (install_one options c targetPath w).2
    = writes w ++ (if dryRun options then []
                   else wrote <$> (target_of targetPath c <$> files c)).
Proof. by intros ->%install_one_succeeded. Qed.

Lemma install_one_success_witness :
  installedDeps
    (install_one (H := plain_platform)
       (options_for Examples.card_registry false true) Examples.card dir
       empty_world).2
  = ["clsx"; "tailwind-merge"].
Proof.
  apply (install_one_success (H := plain_platform)
           (options_for Examples.card_registry false true) Examples.card dir
           empty_world).
  by vm_compute.
Defined.



(** X11. Installing twice: after a real installation of a component with
    at least one file has succeeded, installing it again without [force]
    fails with ["File already exists: "] followed by the target of its
    first file, calls nothing and changes neither the disk nor the
    recorded dependencies. *)
Theorem install_one_twice `{Platform} (options : InstallerOptions)
    (c : Component) (targetPath : string) (w : World)
    (first : ComponentFile) (others : list ComponentFile) :
  force options = false →
  dryRun options = false →
  files c = first :: others →
  success (install_one options c targetPath w).1 = true →
  let w1 := (install_one options c targetPath w).2 in
  install_one options c targetPath w1
  = (failed c ("File already exists: " +:+ target_of targetPath c first),
     w1).
Proof.
  intros Hforce Hdry Hfiles Hok w1.
  assert (is_Some (disk w1 !! target_of targetPath c first)) as Hex.
  { unfold w1. apply install_one_succeeded in Hok as ->. simpl.
    rewrite Hdry. apply write_all_exists. right. rewrite Hfiles. by left. }
  rewrite install_one_unfold. simpl. rewrite Hfiles.
  rewrite install_files_cons. simpl. fold (target_of targetPath c first).
  rewrite Hforce, andb_true_r.
  by rewrite (proj2 (existsSync_true (disk w1) _)).
Qed.

Lemma install_one_twice_witness :
  let options := options_for Examples.card_registry false false in
  let w1 := (install_one (H := plain_platform) options Examples.button dir
               empty_world).2 in
  install_one (H := plain_platform) options Examples.button dir w1
  = (failed Examples.button
       ("File already exists: "
        +:+ target_of (H := plain_platform) dir Examples.button
              (mkFile "button.svelte" "<button>Click me</button>"
                      component_file)),
     w1).
Proof.
  apply (install_one_twice (H := plain_platform)
           (options_for Examples.card_registry false false) Examples.button
           dir empty_world _ []); reflexivity.
Defined.

(** X12. With [force] nothing conflicts: when the calls of [writeFile]
    return, a component is installed successfully whatever the disk holds,
    and after a real run each of its targets exists. *)
Theorem install_one_forced `{Platform} (options : InstallerOptions)
    (c : Component) (targetPath : string) (w : World) :
  let run := install_one options c targetPath w in
  force options = true →
  Forall returned (writes_since w run.2) →
  success run.1 = true
  ∧ (dryRun options = false →
     ∀ f, f ∈ files c → is_Some (disk run.2 !! target_of targetPath c f)).
Proof.
  intros run Hforce Hlog.
  assert (success run.1 = true) as Hok by (apply install_one_ok; auto).
  split; [done|]. intros Hdry f Hf. unfold run in *.
  apply install_one_succeeded in Hok as ->. simpl. rewrite Hdry.
  apply write_all_exists. right. by apply list_elem_of_fmap_2.
Qed.

Lemma install_one_forced_witness :
  success
    (install_one (H := plain_platform)
       (options_for Examples.twice_registry true false) Examples.twice dir
       (mkWorld
          (disk_of [("src/lib/components/twice/a.svelte", "mine")]) [] [])).1
  = true.
Proof.
  apply (install_one_forced (H := plain_platform)
           (options_for Examples.twice_registry true false)).
  - reflexivity.
  - apply (bool_decide_unpack _). by vm_compute.
Defined.

(** X13. [installComponents] touches target paths only, and creates the
    directories above them: on every platform and with every flag, a path
    that is not the target of a file of a resolved component holds after
    the run what it held before, unless it held nothing and is now a
    directory above a target. So a file that is not a target keeps its
    content, and a path that is neither a target nor above one is
    untouched. *)
Theorem installComponents_frame `{Platform} (options : InstallerOptions)
    (componentIds : list string) (targetPath : string) (w : World)
    (allComponents : list Component) (p : string) :
  resolveComponentsWithDependencies (registry options) componentIds
  = Done allComponents →
  p ∉ all_targets targetPath allComponents →
  let after := disk (installComponents options componentIds targetPath w).2 in
  (after !! p = disk w !! p
   ∨ disk w !! p = None
     ∧ after !! p = Some Directory
     ∧ p ∈ above (all_targets targetPath allComponents))
  ∧ (∀ text, disk w !! p = Some (File text) → after !! p = Some (File text))
  ∧ (p ∉ above (all_targets targetPath allComponents) →
     after !! p = disk w !! p).
Proof.
  intros Hres Hp. unfold installComponents. rewrite Hres.
  pose proof (install_loop_change options allComponents targetPath [] w p Hp)
    as Hframe.
  destruct (install_loop options allComponents targetPath [] w). simpl in *.
  split; [exact Hframe|]. unfold kept_or_made in Hframe. split.
  - intros text Htext. destruct Hframe as [->|(Hnone & _)]; congruence.
  - intros Hup. by destruct Hframe as [->|(_ & _ & Hin)].
Qed.

Lemma installComponents_frame_witness :
  disk (installComponents (H := plain_platform)
          (options_for Examples.card_registry true false) ["card"] dir
          (mkWorld (disk_of [("package.json", "{}")]) [] [])).2
  !! "package.json" = Some (File "{}").
Proof.
  destruct (installComponents_frame (H := plain_platform)
              (options_for Examples.card_registry true false) ["card"] dir
              (mkWorld (disk_of [("package.json", "{}")]) [] [])
              [Examples.card; Examples.button] "package.json")
    as (_ & Hfile & _).
  - by vm_compute.
  - apply (bool_decide_unpack _). by vm_compute.
  - by apply Hfile.
Defined.

(** X14. Without [force], [installComponents] never overwrites: on every
    platform, dry run or not, everything that was on the disk before the
    run is there afterwards unchanged: every file with its content, every
    directory. *)
Theorem installComponents_keeps_files `{Platform}
    (options : InstallerOptions) (componentIds : list string)
    (targetPath : string) (w : World) (p : string) (entry : Entry) :
  force options = false →
  disk w !! p = Some entry →
  disk (installComponents options componentIds targetPath w).2 !! p
  = Some entry.
Proof.
  intros Hforce Hp. unfold installComponents.
  destruct (resolveComponentsWithDependencies _ _) as [comps|msg|]; [|done..].
  pose proof (install_loop_keeps options comps targetPath [] w Hforce)
    as Hkeep.
  destruct (install_loop options comps targetPath [] w) as [results w'].
  simpl in *. by eapply lookup_weaken.
Qed.

Lemma installComponents_keeps_files_witness :
  disk (installComponents (H := plain_platform)
          (options_for Examples.card_registry false false) ["card"] dir
          (mkWorld
             (disk_of [("src/lib/components/button/button.svelte", "mine")])
             [] [])).2
  !! "src/lib/components/button/button.svelte" = Some (File "mine").
Proof.
  apply (installComponents_keeps_files (H := plain_platform)
           (options_for Examples.card_registry false false)).
  - reflexivity.
  - by vm_compute.
Defined.

(** X15. What a run records in [installedDeps]: the dependency lists of
    the results, that is of the components installed successfully, are
    added in order to what was recorded before, each name once; earlier
    entries keep their place, no repetition is introduced, and a failed
    component adds nothing. This holds in a dry run as well. *)
Theorem installComponents_records_dependencies `{Platform}
    (options : InstallerOptions) (componentIds : list string)
    (targetPath : string) (w w' : World) (results : list InstallResult) :
  installComponents options componentIds targetPath w = (Done results, w') →
  installedDeps w'
  = installedDeps w
    ++ first_occurrences (list_to_set (installedDeps w)) (recorded results)
  ∧ (NoDup (installedDeps w) → NoDup (installedDeps w'))
  ∧ (∀ r, r ∈ results → success r = false → r_dependencies r = None).
Proof.
  unfold installComponents.
  destruct (resolveComponentsWithDependencies _ _) as [comps|msg|]; [|done..].
  pose proof (install_loop_deps options comps targetPath w) as Hdeps.
  destruct (install_loop_results options comps targetPath [] w)
    as (rs & Hrs & Hall).
  destruct (install_loop options comps targetPath [] w) as [results0 w0]
    eqn:Hloop.
  intros [= <- <-]. simpl in *. subst rs.
  rewrite Hdeps, foldl_set_add. split; [done|]. split.
  - intros Hnd. apply NoDup_app. split; [done|].
    split; [|apply NoDup_first_occurrences].
    intros d Hd [_ Hseen]%elem_of_first_occurrences. set_solver.
  - intros r Hr.
    pose proof (install_loop_Forall options
                  (λ r, success r = false → r_dependencies r = None)
                  comps targetPath [] w) as Hall'.
    rewrite Hloop in Hall'. simpl in Hall'.
    eapply Forall_forall in Hall'; [exact Hall' | | | done].
    + intros c w1. rewrite install_one_unfold. simpl.
      by destruct (install_files _ _ _ _ _ _) as [[msg|l] fs].
    + constructor.
Qed.

Lemma installComponents_records_dependencies_witness :
  installedDeps
    (installComponents (H := plain_platform)
       (options_for Examples.card_registry false true) ["card"] dir
       (mkWorld ∅ ["svelte"; "clsx"] [])).2
  = ["svelte"; "clsx"; "tailwind-merge"].
Proof.
  destruct (installComponents (H := plain_platform)
              (options_for Examples.card_registry false true) ["card"] dir
              (mkWorld ∅ ["svelte"; "clsx"] [])) as [[results| |] w']
    eqn:Hrun;
    try (by vm_compute in Hrun).
  simpl.
  destruct (installComponents_records_dependencies (H := plain_platform)
              _ _ _ _ _ _ Hrun) as (Hdeps & _ & _).
  rewrite Hdeps. clear Hdeps.
  vm_compute in Hrun. injection Hrun as <- <-. by vm_compute.
Defined.

(** X16. What [installDependencies] runs after [installComponents] on a
    new installer: nothing when no installed component has a dependency;
    otherwise one command, the package manager of the configuration with
    [install] for npm and [add] for the others, followed by the
    dependencies of the installed components, each name once, in the order
    they were first met. It fails exactly when that command does. Since a
    dry run records dependencies too, this also holds after a dry run. *)
Theorem installDependencies_after_run `{Platform} `{Shell}
    (options : InstallerOptions) (componentIds : list string)
    (targetPath : string) (w w' : World) (results : list InstallResult) :
  installedDeps w = [] →
  installComponents options componentIds targetPath w = (Done results, w') →
  let pm := packageManager (projectInfo options) in
  let names := first_occurrences ∅ (recorded results) in
  let command :=
    (match pm with npm => "install" | _ => "add" end) :: names in
  NoDup names
  ∧ (∀ d, d ∈ names ↔ d ∈ recorded results)
  ∧ installDependencies options w'
    = match recorded results with
      | [] => ([], Done tt)
      | _ => ([mkInvocation (manager_name pm) command],
              match execa (manager_name pm) command with
              | None => Done tt
              | Some msg => Throw msg
              end)
      end.
Proof.
  intros Hnew Hrun pm names command.
  split; [apply NoDup_first_occurrences|]. split.
  { intros d. unfold names. rewrite elem_of_first_occurrences. set_solver. }
  by apply (installDependencies_new options componentIds targetPath w).
Qed.

Lemma installDependencies_after_run_witness :
  (installDependencies (H := quiet_shell)
     (options_for Examples.card_registry false false)
     (installComponents (H := plain_platform)
        (options_for Examples.card_registry false false) ["card"] dir
        empty_world).2).1
  = [mkInvocation "npm" ["install"; "clsx"; "tailwind-merge"]].
Proof.
  destruct (installComponents (H := plain_platform)
              (options_for Examples.card_registry false false) ["card"] dir
              empty_world) as [[results| |] w'] eqn:Hrun;
    try (by vm_compute in Hrun).
  simpl.
  destruct (installDependencies_after_run (H := plain_platform)
              (H0 := quiet_shell)
              (options_for Examples.card_registry false false) ["card"] dir
              empty_world w' results eq_refl Hrun)
    as (_ & _ & Hcalls).
  rewrite Hcalls. clear Hcalls.
  vm_compute in Hrun. injection Hrun as <- <-. by vm_compute.
Defined.

End InstallerExtra.

(** ** Further properties: project detector *)
Module AnalyzerExtra.
Import Analyzer AnalyzerFacts.

Section facts.
Context `{FsView}.

Lemma find_Some_first (dir : Path) names earlier name later :
  names = earlier ++ name :: later →
  existsSync (join dir [name]) = true →
  (∀ n, n ∈ earlier → existsSync (join dir [n]) = false) →
  List.find (λ n, existsSync (join dir [n])) names = Some name.
Proof.
  intros -> Hname. induction earlier as [|n earlier IH]; intros Hearlier.
  - simpl. by rewrite Hname.
  - simpl. rewrite (Hearlier n) by left. apply IH.
    intros n' Hn'. apply Hearlier. by right.
Qed.

Lemma findUp_found names (dir level : Path) name earlier later :
  level ≠ root → level `suffix_of` dir →
  names = earlier ++ name :: later →
  existsSync (join level [name]) = true →
  (∀ n, n ∈ earlier → existsSync (join level [n]) = false) →
  (∀ nearer, nearer `suffix_of` dir → length level < length nearer →
             ∀ n, n ∈ names → existsSync (join nearer [n]) = false) →
  findUp names dir = Some (join level [name]).
Proof.
  intros Hne Hsuf Hnames Hname Hearlier.
  induction dir as [|seg parent IH]; intros Hnearer.
  { apply suffix_nil_inv in Hsuf. done. }
  destruct level as [|a level]; [done|].
  cbn [findUp].
  apply suffix_cons_inv in Hsuf as [[= -> ->]|Hsuf].
  - by rewrite (find_Some_first _ _ _ _ _ Hnames Hname Hearlier).
  - rewrite (proj2 (find_none (seg :: parent) names)).
    + apply IH; [done|]. intros nearer Hn Hlen.
      apply Hnearer; [by apply suffix_cons_r | done].
    + apply Hnearer; [done|]. apply suffix_length in Hsuf. simpl in *. lia.
Qed.

End facts.

(** X17. What [findUp] returns. It returns a path exactly when that path
    is the first existing candidate, in the order of the list, in the
    nearest directory below the file system root, from the start directory
    upwards, that holds a candidate at all; it returns nothing exactly when
    no such directory holds one. The root directory itself is never
    looked into. *)
Theorem findUp_characterised `{FsView} (names : list string)
    (dir found : Path) :
  (findUp names dir = Some found ↔
   ∃ level name earlier later,
     level ≠ root ∧ level `suffix_of` dir
     ∧ found = join level [name]
     ∧ names = earlier ++ name :: later
     ∧ existsSync found = true
     ∧ (∀ n, n ∈ earlier → existsSync (join level [n]) = false)
     ∧ ∀ nearer, nearer `suffix_of` dir → length level < length nearer →
                 ∀ n, n ∈ names → existsSync (join nearer [n]) = false)
  ∧ (findUp names dir = None ↔
     ∀ level, level ≠ root → level `suffix_of` dir →
              ∀ n, n ∈ names → existsSync (join level [n]) = false).
Proof.
  split; [|apply findUp_None]. split; [apply findUp_Some|].
  intros (level & name & earlier & later & Hne & Hsuf & -> & Hnames & Hname
          & Hearlier & Hnearer).
  by eapply findUp_found.
Qed.

(** X18. What is found from a directory is found from every directory
    below it: if [findUp] finds one of the names starting from [dir], it
    finds one starting from any directory that has [dir] among its
    ancestors (possibly a nearer one); so a project whose TypeScript
    configuration is seen from [dir] is seen as a TypeScript project from
    its subdirectories. *)
Theorem findUp_inherited `{FsView} (names : list string) (dir sub : Path) :
  dir `suffix_of` sub →
  is_Some (findUp names dir) →
  is_Some (findUp names sub)
  ∧ (hasTypeScript dir = true → hasTypeScript sub = true).
Proof.
  intros Hsuf. 
  assert (∀ names, is_Some (findUp names dir) → is_Some (findUp names sub))
    as Hall.
  { clear names. intros names [found Hfound].
    destruct (findUp names sub) as [p|] eqn:Hsub; [by eexists|].
    apply findUp_Some in Hfound
      as (level & name & earlier & later & Hne & Hlevel & -> & -> & Hname
          & _).
    rewrite findUp_None in Hsub.
    rewrite (Hsub level) in Hname; [done|done| |set_solver].
    by etrans. }
  intros Hfound. split; [by apply Hall|].
  unfold hasTypeScript. intros Hts.
  destruct (Hall ["tsconfig.json"; "tsconfig.node.json"]) as [p ->]; [|done].
  destruct (findUp ["tsconfig.json"; "tsconfig.node.json"] dir);
    [by eexists | done].
Qed.

Lemma findUp_inherited_witness :
  is_Some (findUp (H := view_of [["tsconfig.json"; "app"]])
             ["tsconfig.json"; "tsconfig.node.json"]
             ["routes"; "src"; "app"]).
Proof.
  apply (findUp_inherited (H := view_of [["tsconfig.json"; "app"]])
           ["tsconfig.json"; "tsconfig.node.json"] ["app"]).
  - by exists ["routes"; "src"].
  - by eexists.
Defined.

(** X19. The result of [analyze] is well formed, and tells why it failed:
    it is valid with a configuration and no error, or invalid with an
    error and no configuration. It is valid exactly when a Svelte
    configuration is found and the styling can be detected, that is a
    Tailwind configuration is found, or there is no [package.json] beside,
    or reading it does not throw. An error is either the missing
    configuration, or the message thrown while reading [package.json], the
    latter only when no Tailwind configuration was found. *)
Theorem analyze_outcome `{FsView} (cwd : Path) :
  let r := analyze cwd in
  let tailwindFound :=
    is_Some (findUp ["tailwind.config.js"; "tailwind.config.ts";
                     "tailwind.config.cjs"] cwd) in
  let manifest := join cwd ["package.json"] in
  (isValid r = true ∧ is_Some (config r) ∧ error r = None
   ∨ isValid r = false ∧ config r = None ∧ is_Some (error r))
  ∧ (isValid r = true ↔
     is_Some (findSvelteConfig cwd)
     ∧ (tailwindFound ∨ existsSync manifest = false
        ∨ ∃ sass, packageJsonSass manifest = inr sass))
  ∧ (∀ msg, error r = Some msg →
       findSvelteConfig cwd = None ∧ msg = no_config_error
       ∨ is_Some (findSvelteConfig cwd) ∧ ¬ tailwindFound
         ∧ existsSync manifest = true
         ∧ packageJsonSass manifest = inl msg).
Proof.
  simpl. unfold analyze, detectStyling, is_Some.
  destruct (findSvelteConfig cwd) as [found|]; simpl; [|naive_solver].
  destruct (findUp _ cwd) as [tw|]; simpl; [naive_solver|].
  destruct (existsSync (join cwd ["package.json"])) eqn:Hpj; simpl;
    [|naive_solver].
  destruct (packageJsonSass (join cwd ["package.json"])) as [msg|[]]
    eqn:Hsass; simpl; naive_solver.
Qed.

End AnalyzerExtra.

(** ** Further properties: registry client *)
Module ClientExtra.
Import Adapter AdapterFacts Client.

Lemma strip_slash_app u : strip_slash (u +:+ "/") = u.
Proof.
  induction u as [|c u IH]; [done|].
  simpl. destruct (u +:+ "/") eqn:E.
  - by destruct u.
  - by rewrite IH.
Qed.

Lemma strip_slash_id s : (∀ u, s ≠ u +:+ "/") → strip_slash s = s.
Proof.
  induction s as [|c s IH]; intros Hs; [done|].
  destruct s as [|d s].
  - simpl. destruct (Ascii.eqb_spec c "/") as [->|]; [|done].
    by destruct (Hs EmptyString).
  - change (strip_slash (String c (String d s)))
      with (String c (strip_slash (String d s))).
    rewrite IH; [done|]. intros u Hu. apply (Hs (String c u)).
    simpl. by rewrite Hu.
Qed.

(** X20. A final slash of the registry URL does not count: the client made
    for a URL followed by a slash has that URL as its base, so it is the
    client made for the URL itself when this one has no final slash. Only
    one slash is removed. *)
Theorem new_client_trailing_slash (url : string) (env : option string) :
  baseUrl (new_client (Some (url +:+ "/")) env) = url
  ∧ ((∀ u, url ≠ u +:+ "/") →
     new_client (Some (url +:+ "/")) env = new_client (Some url) env).
Proof.
  unfold new_client. simpl. rewrite strip_slash_app. split; [done|].
  intros Hurl. by rewrite strip_slash_id.
Qed.

Lemma new_client_trailing_slash_witness :
  new_client (Some "https://registry.example/") None
  = new_client (Some "https://registry.example") None.
Proof.
  apply (proj2 (new_client_trailing_slash "https://registry.example" None)).
  intros u Hu.
  assert (strip_slash "https://registry.example"
          = strip_slash (u +:+ "/")) as Hs by by rewrite Hu.
  rewrite strip_slash_app in Hs. subst u. by vm_compute in Hu.
Defined.

(** X21. What was fetched once is served from the cache: after
    [getComponent] has returned a descriptor for an identifier, a later
    call for that identifier returns the same descriptor and leaves the
    client as it is, whatever the service would answer by then, also when
    it is down. No entry of the cache is lost or replaced by a call. *)
Theorem getComponent_cached (before later : Service)
    (client client1 : ComponentRegistry) (componentId : string)
    (component : Component) :
  client_getComponent (H := before) client componentId
  = (Done component, client1) →
  client_getComponent (H := later) client1 componentId
  = (Done component, client1)
  ∧ cache client ⊆ cache client1
  ∧ baseUrl client1 = baseUrl client.
Proof.
  unfold client_getComponent.
  destruct (cache client !! componentId) as [c|] eqn:Hc.
  - intros [= <- <-]. by rewrite Hc.
  - destruct (fetch _) as [msg|status|c]; try done.
    intros [= <- <-]. simpl. rewrite lookup_insert_eq.
    split; [done|]. split; [by apply insert_subseteq | done].
Qed.

Lemma getComponent_cached_witness :
  let client := new_client (Some "https://registry.example/") None in
  let client1 :=
    (client_getComponent (H := serving "https://registry.example"
                          Examples.card_descriptors) client "card").2 in
  client_getComponent (H := offline) client1 "card"
  = (Done Examples.card, client1).
Proof.
  intros client client1.
  apply (getComponent_cached
           (serving "https://registry.example" Examples.card_descriptors)
           offline client client1 "card" Examples.card).
  by vm_compute.
Defined.

(** X22. Failures are not cached: a call of [getComponent] that throws
    leaves the client as it was, so the next call for the identifier asks
    the service again and returns what it answers then. The error for a
    response that is not [ok] names the identifier. *)
Theorem getComponent_failure_retried (before later : Service)
    (client client1 : ComponentRegistry) (componentId msg : string) :
  client_getComponent (H := before) client componentId
  = (Throw msg, client1) →
  client1 = client
  ∧ cache client !! componentId = None
  ∧ (∀ status,
       fetch (Service := before)
             (component_url (baseUrl client) componentId) = NotOk status →
       msg = Registry.not_found componentId)
  ∧ ∀ component,
      fetch (Service := later)
            (component_url (baseUrl client) componentId) = Valid component →
      (client_getComponent (H := later) client1 componentId).1 = Done component.
Proof.
  unfold client_getComponent.
  destruct (cache client !! componentId) as [c|] eqn:Hc; [done|].
  destruct (fetch _) as [m|status|c] eqn:Hf; try done;
    intros [= <- <-]; repeat split; try done.
  - intros component Hlater. by rewrite Hc, Hlater.
  - intros component Hlater. by rewrite Hc, Hlater.
Qed.

Lemma getComponent_failure_retried_witness :
  let client := new_client (Some "https://registry.example") None in
  (client_getComponent (H := serving "https://registry.example"
                        Examples.card_descriptors)
     (client_getComponent (H := offline) client "card").2 "card").1
  = Done Examples.card.
Proof.
  intros client.
  destruct (getComponent_failure_retried offline
              (serving "https://registry.example" Examples.card_descriptors)
              client (client_getComponent (H := offline) client "card").2
              "card" "fetch failed") as (_ & _ & _ & Hretry).
  - by vm_compute.
  - apply Hretry. by vm_compute.
Defined.

(** X23. Against a service that keeps serving the same registry, the cache
    cannot be observed: when every cached descriptor is the registry's,
    [getComponent] returns the registry's descriptor for a known
    identifier and throws the not-found error for an unknown one, as the
    registry model of the resolver does for a registry without failing
    requests, and the cache stays within the registry. *)
Theorem getComponent_stable_service (reg : gmap string Component)
    (client : ComponentRegistry) (componentId : string) :
  cache client ⊆ reg →
  let run := client_getComponent (H := serving (baseUrl client) reg) client
               componentId in
  run.1 = match Registry.getComponent (Registry.registry_of reg)
                  componentId with
          | inr component => Done component
          | inl msg => Throw msg
          end
  ∧ cache run.2 ⊆ reg.
Proof.
  intros Hcache. unfold client_getComponent, Registry.getComponent. simpl.
  destruct (cache client !! componentId) as [c|] eqn:Hc.
  - by rewrite (lookup_weaken _ _ _ _ Hc Hcache).
  - unfold component_url.
    rewrite (proj2 (strip_prefix_spec
                      (baseUrl client +:+ "/registry/components/")
                      (baseUrl client +:+ "/registry/components/"
                       +:+ componentId) componentId));
      [|by rewrite append_assoc'].
    destruct (reg !! componentId) as [c|] eqn:Hreg; [|done].
    split; [done|]. simpl. by apply insert_subseteq_l.
Qed.

Lemma getComponent_stable_service_witness :
  (client_getComponent (H := serving "https://registry.example"
                        Examples.card_descriptors)
     (new_client (Some "https://registry.example/") None) "tooltip").1
  = Throw (Registry.not_found "tooltip").
Proof.
  apply (getComponent_stable_service Examples.card_descriptors
           (new_client (Some "https://registry.example/") None) "tooltip").
  apply map_empty_subseteq.
Defined.

(** X28. The registry of the resolver is the client seen from outside, the
    failing requests included: against a service that answers throughout
    as a registry tells, a client whose cached descriptors are the
    registry's returns from [getComponent] what the registry model
    returns, and throws what it throws: the not-found error for a response
    that is not [ok], the error of the request when it failed. The cache
    stays within the registry. *)
Theorem getComponent_is_registry (reg : Registry.Registry)
    (client : ComponentRegistry) (componentId : string) :
  cache client ⊆ Registry.descriptors reg →
  let run := client_getComponent (H := answering (baseUrl client) reg) client
               componentId in
  run.1 = match Registry.getComponent reg componentId with
          | inr component => Done component
          | inl msg => Throw msg
          end
  ∧ cache run.2 ⊆ Registry.descriptors reg.
Proof.
  intros Hcache. unfold client_getComponent, Registry.getComponent. simpl.
  destruct (cache client !! componentId) as [c|] eqn:Hc.
  - by rewrite (lookup_weaken _ _ _ _ Hc Hcache).
  - unfold component_url.
    rewrite (proj2 (strip_prefix_spec
                      (baseUrl client +:+ "/registry/components/")
                      (baseUrl client +:+ "/registry/components/"
                       +:+ componentId) componentId));
      [|by rewrite append_assoc'].
    destruct (Registry.descriptors reg !! componentId) as [c|] eqn:Hreg.
    + split; [done|]. simpl. by apply insert_subseteq_l.
    + by destruct (Registry.failures reg !! componentId).
Qed.

Lemma getComponent_is_registry_witness :
  (client_getComponent (H := answering "https://registry.example"
                        Examples.flaky_registry)
     (new_client (Some "https://registry.example/") None) "button").1
  = Throw "fetch failed".
Proof.
  apply (getComponent_is_registry Examples.flaky_registry
           (new_client (Some "https://registry.example/") None) "button").
  apply map_empty_subseteq.
Defined.

End ClientExtra.

(** ** Further properties: the install command *)
Module InstallCommandExtra.
Import Registry Resolver Installer InstallerFacts InstallerExtra Dependencies
       InstallCommand.

Section facts.
Context `{Analyzer.FsView} `{Platform} `{Shell} `{Session}.

Lemma has_dependencies_recorded results :
  existsb has_dependencies results = true ↔ recorded results ≠ [].
Proof.
  induction results as [|r results IH]; [done|].
  unfold recorded in *. simpl. unfold has_dependencies at 1.
  destruct (r_dependencies r) as [[|d deps]|]; simpl; try done.
Qed.

Lemma installComponents_ends options componentIds targetPath w :
  (∃ allComponents results,
     resolveComponentsWithDependencies (registry options) componentIds
     = Done allComponents
     ∧ (installComponents options componentIds targetPath w).1 = Done results
     ∧ Forall2 result_of allComponents results)
  ∨ (∃ msg,
       resolveComponentsWithDependencies (registry options) componentIds
       = Throw msg
       ∧ installComponents options componentIds targetPath w = (Throw msg, w)).
Proof.
  unfold installComponents.
  pose proof (ResolverFacts.resolve_trace_terminates (registry options)
                componentIds) as Hterm.
  unfold resolveComponentsWithDependencies in *.
  destruct (resolve_trace _ _).2 as [resolved|msg|]; [| |done].
  - left.
    destruct (install_loop_results options (JsMap.values resolved)
                targetPath [] w) as (rs & Hrs & Hall).
    destruct (install_loop _ _ _ _ _) as [results w']. simpl in *. subst.
    eauto.
  - right. eauto.
Qed.

(** The report after the installer is made. *)
Lemma install_and_report_spec config components flags was_asked fs :
  let options := mkOptions config (served (flag_registry flags))
                           (flag_force flags) (flag_dryRun flags) in
  let r := install_and_report config components flags was_asked fs in
  asked r = was_asked
  ∧ (flag_dryRun flags = true → after r = fs ∧ calls r = [])
  ∧ (calls r = []
     ∧ (flag_dryRun flags = true ∨ recorded (shown r) = [])
     ∨ flag_dryRun flags = false
       ∧ recorded (shown r) ≠ []
       ∧ calls r
         = [mkInvocation (manager_name (packageManager config))
              ((match packageManager config with
                | npm => "install" | _ => "add" end)
               :: first_occurrences ∅ (recorded (shown r)))])
  ∧ (∀ msg,
       resolveComponentsWithDependencies (served (flag_registry flags))
         components = Throw msg →
       r = mkReport (Exit 1) was_asked fs [] [])
  ∧ (∀ allComponents,
       resolveComponentsWithDependencies (served (flag_registry flags))
         components = Done allComponents →
       Forall2 result_of allComponents (shown r)
       ∧ ((∀ program arguments, execa program arguments = None) →
          ending r = Return)).
Proof.
  intros options r. subst r. unfold install_and_report. fold options.
  pose proof (installComponents_dry options components
                (formatPath (flag_path flags)) (mkWorld fs [] [])) as Hdry.
  destruct (installComponents_ends options components
              (formatPath (flag_path flags)) (mkWorld fs [] []))
    as [(comps & results & Hres & Hrun & Hall)|(msg & Hres & Hrun)].
  - destruct (installComponents options components _ _) as [o w] eqn:Hinst.
    simpl in Hrun. subst o. simpl in Hres. rewrite Hres.
    pose proof (installDependencies_new options components
                  (formatPath (flag_path flags)) (mkWorld fs [] []) w results
                  eq_refl Hinst) as Hcalls.
    simpl in Hcalls, Hdry.
    destruct (flag_dryRun flags) eqn:Hflag; simpl.
    { rewrite (proj1 (Hdry eq_refl)). simpl. naive_solver. }
    destruct (existsb has_dependencies results) eqn:Hsome.
    + apply has_dependencies_recorded in Hsome.
      rewrite Hcalls. destruct (recorded results) eqn:Hrec; [done|].
      rewrite <- Hrec in *.
      destruct (execa _ _) as [failure|] eqn:Hexec; simpl.
      * split; [done|]. split; [done|]. split; [by right|]. split; [done|].
        intros ? [= <-]. split; [done|].
        intros Hquiet. by rewrite Hquiet in Hexec.
      * naive_solver.
    + assert (recorded results = []) as Hrec.
      { destruct (recorded results) eqn:Hrec; [done|].
        assert (existsb has_dependencies results = true) as Ht
          by (apply has_dependencies_recorded; by rewrite Hrec).
        congruence. }
      simpl. naive_solver.
  - simpl in Hres. rewrite Hrun, Hres. simpl. naive_solver.
Qed.

Lemma analyze_valid_config (dir : Analyzer.Path) :
  Analyzer.isValid (Analyzer.analyze dir) = true →
  ∃ config, Analyzer.config (Analyzer.analyze dir) = Some config.
Proof.
  unfold Analyzer.analyze.
  destruct (Analyzer.findSvelteConfig dir); [|done].
  destruct (Analyzer.detectStyling dir); [done|]. simpl. eauto.
Qed.

End facts.

#[local] Abbreviation flags_for f d := (mkFlags "src/lib/components" f d None).
#[local] Abbreviation run_example answer components flags fs :=
  (@install_action app_view plain_platform quiet_shell (session answer)
     components flags fs).

(** X24. A dry run of the install command is harmless: with [--dry-run]
    the action never asks for confirmation, leaves the disk as it is and
    never runs the package manager, whatever the project, the registry and
    the requested components are. *)
Theorem install_action_dry_run {V : Analyzer.FsView} {P : Platform}
    {Sh : Shell} {Se : Session} (components : list string) (flags : Flags)
    (fs : FileSystem) :
  flag_dryRun flags = true →
  let r := install_action components flags fs in
  asked r = false ∧ after r = fs ∧ calls r = [].
Proof.
  intros Hdry. unfold install_action. rewrite Hdry. simpl.
  destruct (Analyzer.isValid _); [|done].
  destruct (Analyzer.config _) as [config|]; [|done].
  assert (∀ cs, let r := install_and_report config cs flags false fs in
                asked r = false ∧ after r = fs ∧ calls r = []) as Hgo.
  { intros cs.
    destruct (install_and_report_spec config cs flags false fs)
      as (Hasked & Hd & _). split; [done|]. by apply Hd. }
  destruct (chosen components flags) as [msg|cs]; [done | apply Hgo].
Qed.

Lemma install_action_dry_run_witness :
  after (run_example true ["card"] (flags_for false true) ∅) = ∅.
Proof.
  apply (@install_action_dry_run app_view plain_platform quiet_shell
           (session true) ["card"] (flags_for false true) ∅).
  reflexivity.
Defined.

(** X25. When the install command runs the package manager. It runs it at
    most once, and only in a real run, after the user has answered yes at
    the confirmation, when an installed component has dependencies; the
    command is then the detected package manager with [install] (npm) or
    [add], followed by the dependencies of the installed components, each
    once. So the test for an empty set in [installDependencies] never
    stops a call made by the command. *)
Theorem install_action_package_manager {V : Analyzer.FsView} {P : Platform}
    {Sh : Shell} {Se : Session} (components : list string) (flags : Flags)
    (fs : FileSystem) :
  let r := install_action components flags fs in
  calls r = [] ∧ (flag_dryRun flags = true ∨ recorded (shown r) = [])
  ∨ flag_dryRun flags = false
    ∧ confirm = inr true
    ∧ asked r = true
    ∧ recorded (shown r) ≠ []
    ∧ ∃ config,
        Analyzer.config (Analyzer.analyze cwd) = Some config
        ∧ calls r
          = [mkInvocation (manager_name (packageManager config))
               ((match packageManager config with
                 | npm => "install" | _ => "add" end)
                :: first_occurrences ∅ (recorded (shown r)))].
Proof.
  unfold install_action.
  destruct (Analyzer.isValid _); [|by left; eauto].
  destruct (Analyzer.config _) as [config|]; [|by left; eauto].
  destruct (chosen components flags) as [msg|cs]; [by left; eauto|].
  destruct (install_and_report_spec config cs flags true fs)
    as (Ha & _ & Hcalls & _).
  destruct (install_and_report_spec config cs flags false fs)
    as (_ & Hdry & _).
  destruct (flag_dryRun flags) eqn:Hflag; simpl.
  { left. destruct (Hdry eq_refl) as [_ ->]. auto. }
  destruct confirm as [msg|[]]; [by left; eauto| |by left; eauto].
  destruct Hcalls as [Hnone|(_ & Hrec & Hcalls)]; [by left|].
  right. split; [done|]. split; [done|]. split; [done|]. split; [done|].
  by exists config.
Qed.

Lemma install_action_package_manager_witness :
  calls (@install_action app_view plain_platform quiet_shell (session true)
           ["card"] (mkFlags "src/lib/components" false false None) ∅)
  = [mkInvocation "npm" ["install"; "clsx"; "tailwind-merge"]].
Proof.
  destruct (@install_action_package_manager app_view plain_platform
              quiet_shell (session true) ["card"]
              (mkFlags "src/lib/components" false false None) ∅)
    as [[Hnone _]|(_ & _ & _ & _ & config & Hconfig & Hcalls)].
  - by vm_compute in Hnone.
  - rewrite Hcalls. vm_compute in Hconfig. injection Hconfig as <-.
    by vm_compute.
Defined.

(** X26. A component that fails to install does not make the command fail:
    in a valid project, with the components named, once the user has
    confirmed or the run is dry, if the resolution succeeds and the package
    manager does not fail, the action returns normally with one result per
    resolved component, whether the components were installed or not. *)
Theorem install_action_completes {V : Analyzer.FsView} {P : Platform}
    {Sh : Shell} {Se : Session} (components : list string) (flags : Flags)
    (fs : FileSystem) (allComponents : list Component) :
  Analyzer.isValid (Analyzer.analyze cwd) = true →
  components ≠ [] →
  (flag_dryRun flags = true ∨ confirm = inr true) →
  resolveComponentsWithDependencies (served (flag_registry flags)) components
  = Done allComponents →
  (∀ program arguments, execa program arguments = None) →
  let r := install_action components flags fs in
  ending r = Return ∧ Forall2 result_of allComponents (shown r).
Proof.
  intros Hvalid Hcs Hgo Hres Hquiet. unfold install_action.
  destruct (analyze_valid_config cwd Hvalid) as [config ->].
  rewrite Hvalid. destruct components as [|c cs]; [done|].
  change (chosen (c :: cs) flags) with (@inr string _ (c :: cs)).
  assert (∀ was_asked,
            let r := install_and_report config (c :: cs) flags was_asked fs in
            ending r = Return ∧ Forall2 result_of allComponents (shown r))
    as Hreport.
  { intros was_asked.
    destruct (install_and_report_spec config (c :: cs) flags was_asked fs)
      as (_ & _ & _ & _ & Hdone).
    destruct (Hdone _ Hres) as [Hall Hend]. split; [by apply Hend | done]. }
  destruct (flag_dryRun flags) eqn:Hdry; simpl; [apply Hreport|].
  destruct Hgo as [?| ->]; [done|]. apply Hreport.
Qed.

Lemma install_action_completes_witness :
  let fs : FileSystem :=
    disk_of [("src/lib/components/button/button.svelte", "mine")] in
  let r := run_example true ["button"] (flags_for false false) fs in
  ending r = Return ∧ Forall2 result_of [Examples.button] (shown r).
Proof.
  intros fs r.
  apply (@install_action_completes app_view plain_platform quiet_shell
           (session true) ["button"] (flags_for false false) fs
           [Examples.button]).
  - by vm_compute.
  - discriminate.
  - right. reflexivity.
  - by vm_compute.
  - intros program arguments. reflexivity.
Defined.



End InstallCommandExtra.
